(** * Swagger endpoint overlap checker: a shallow embedding of [src/script.js]

    The development follows the script function by function:
    [normalizePath], [pathIncludesSegments], [extractEndpointsWithMethods],
    [isPathOverlapping] and [findOverlappingEndpoints].

    Strings are [String.string]; the operations the script applies to them
    ([replace] with the pattern [/\/$/], [split('/')], [startsWith('{')],
    [===]) work character by character and are modelled as such.
    [toLowerCase] is the case map of the engine: it is a parameter of the
    functions that call it, and the properties name the laws of it they
    rely on.  [JsString.ascii_lower], the map of the letters A to Z, is
    the instance at which the properties are exercised.

    A JavaScript object is a list of (key, value) pairs in the order in
    which the engine enumerates its own properties ([for ... in],
    [Object.keys], [Object.entries]).  Order matters everywhere in the
    script, hence an association list and not a finite map. *)

From Stdlib Require Import List String Ascii Bool Arith Lia ZArith.
From Stdlib Require Import Permutation Sorted DecimalString.
Import ListNotations.
Local Open Scope string_scope.
Local Open Scope list_scope.

Set Implicit Arguments.

(* ================================================================== *)
(** ** Strings *)

Module JsString.

(** The character [/], separator of path segments. *)
Definition slash : ascii := "/"%char.

(** [s.startsWith(p)]. *)
Definition startsWith (s p : string) : bool := String.prefix p s.

(** [s.endsWith(p)] is not called by the script; it is used to state
    what [normalizePath] does. *)
Fixpoint endsWith (s p : string) : bool :=
  String.eqb s p ||
  match s with
  | EmptyString => false
  | String _ r => endsWith r p
  end.

(** [s.split('/')]: the tokens between the separators.  The empty string
    gives one empty token, and [n] separators always give [n + 1]
    tokens. *)
Fixpoint split (sep : ascii) (s : string) : list string :=
  match s with
  | EmptyString => [EmptyString]
  | String c r =>
      if Ascii.eqb c sep then EmptyString :: split sep r
      else match split sep r with
           | tok :: toks => String c tok :: toks
           | [] => [String c EmptyString]
           end
  end.

(** ASCII upper-case letters. *)
Definition is_upper (c : ascii) : bool :=
  let n := nat_of_ascii c in ((65 <=? n)%nat && (n <=? 90)%nat)%bool.

Definition lower_ascii (c : ascii) : ascii :=
  if is_upper c then ascii_of_nat (nat_of_ascii c + 32) else c.

(** The case map of the ASCII letters: A to Z go to a to z, every other
    character stays.  On a string of ASCII characters this is what
    [s.toLowerCase()] gives. *)
Fixpoint ascii_lower (s : string) : string :=
  match s with
  | EmptyString => EmptyString
  | String c r => String (lower_ascii c) (ascii_lower r)
  end.

(** Every character of the string is an ASCII character. *)
Fixpoint is_ascii (s : string) : bool :=
  match s with
  | EmptyString => true
  | String c r => (nat_of_ascii c <? 128)%nat && is_ascii r
  end.

(** A string holds at least one of the letters A to Z. *)
Fixpoint has_upper (s : string) : bool :=
  match s with
  | EmptyString => false
  | String c r => is_upper c || has_upper r
  end.

(** The decimal numeral of an array index, as [String(i)] gives it. *)
Definition of_index (i : nat) : string :=
  NilZero.string_of_uint (Nat.to_uint i).

End JsString.

(* ================================================================== *)
(** ** PathNormalizer *)

(** [path.replace(/\/$/, '')].  The pattern has no [g] and no [m] flag:
    the engine tries it at every position from the left, it matches where
    a [/] is followed by the end of the input, and that one character is
    replaced by the empty string. *)
Fixpoint normalizePath (path : string) : string :=
  match path with
  | EmptyString => EmptyString
  | String c r =>
      if Ascii.eqb c JsString.slash && String.eqb r EmptyString
      then EmptyString
      else String c (normalizePath r)
  end.

(* ================================================================== *)
(** ** SegmentMatcher *)

(** The [for] loop of [pathIncludesSegments], from index [i], with
    [fuel] iterations left ([givenSegments.length - i]). *)
Fixpoint segments_loop (givenSegments existingSegments : list string)
         (i fuel : nat) : bool :=
  match fuel with
  | O => true
  | S fuel' =>
      let g := nth i givenSegments EmptyString in
      let e := nth i existingSegments EmptyString in
      if negb (String.eqb g e) && negb (JsString.startsWith e "{")
      then false
      else segments_loop givenSegments existingSegments (S i) fuel'
  end.

Definition pathIncludesSegments (givenPath existingPath : string) : bool :=
  let givenSegments := JsString.split JsString.slash givenPath in
  let existingSegments := JsString.split JsString.slash existingPath in
  if negb (List.length givenSegments =? List.length existingSegments)%nat then false
  else segments_loop givenSegments existingSegments 0 (List.length givenSegments).

(* ================================================================== *)
(** ** Values, objects and abrupt completion *)

(** The values a parsed specification document is made of, and
    [undefined], which a property read of a missing field gives.  The
    payload of a number is never inspected by the script. *)
Unset Elimination Schemes.
Inductive JsValue : Type :=
| JsUndefined
| JsNull
| JsBoolean (b : bool)
| JsNumber (n : Z)
| JsString (s : string)
| JsArray (elems : list JsValue)
| JsObject (props : list (string * JsValue)).
Set Elimination Schemes.

(** The only exception the functions below can raise by themselves. *)
Inductive JsError : Type := TypeError.

(** A call either returns normally or throws. *)
Inductive completion (A : Type) : Type :=
| Normal (a : A)
| Throw (e : JsError).

Arguments Normal {A} a.
Arguments Throw {A} e.

Definition bind {A B : Type} (c : completion A) (k : A -> completion B)
  : completion B :=
  match c with
  | Normal a => k a
  | Throw e => Throw e
  end.

Notation "x <- c ;; k" := (bind c (fun x => k))
  (at level 61, c at next level, right associativity).

Module JsObject.

(** [o[k]] for an own property: the value, or nothing for [undefined]. *)
Fixpoint get {V : Type} (o : list (string * V)) (k : string) : option V :=
  match o with
  | [] => None
  | (k', v) :: o' => if String.eqb k' k then Some v else get o' k
  end.

(** [o[k] = v] on an ordinary data property: an existing key keeps its
    place, a new key goes last. *)
Fixpoint set {V : Type} (o : list (string * V)) (k : string) (v : V)
  : list (string * V) :=
  match o with
  | [] => [(k, v)]
  | (k', v') :: o' =>
      if String.eqb k' k then (k', v) :: o' else (k', v') :: set o' k v
  end.

(** [Object.keys(o)]. *)
Definition keys {V : Type} (o : list (string * V)) : list string :=
  map fst o.

(** The characters of a string as its indexed properties. *)
Fixpoint chars_from (i : nat) (s : string) : list (string * JsValue) :=
  match s with
  | EmptyString => []
  | String c r =>
      (JsString.of_index i, JsString (String c EmptyString))
        :: chars_from (S i) r
  end.

(** The elements of an array as its indexed properties. *)
Fixpoint elems_from (i : nat) (l : list JsValue) : list (string * JsValue) :=
  match l with
  | [] => []
  | v :: r => (JsString.of_index i, v) :: elems_from (S i) r
  end.

(** The own enumerable string-keyed properties of a value, in the
    engine's enumeration order. *)
Definition own_properties (v : JsValue) : list (string * JsValue) :=
  match v with
  | JsString s => chars_from 0 s
  | JsArray l => elems_from 0 l
  | JsObject props => props
  | _ => []
  end.

(** [Object.keys(v)] on an arbitrary value: [undefined] and [null]
    cannot be converted to an object. *)
Definition keys_of_value (v : JsValue) : completion (list string) :=
  match v with
  | JsUndefined | JsNull => Throw TypeError
  | _ => Normal (keys (own_properties v))
  end.

(** [v[k]] where [k] is one of the keys enumerated from [v]. *)
Definition member (v : JsValue) (k : string) : JsValue :=
  match get (own_properties v) k with
  | Some x => x
  | None => JsUndefined
  end.

(** [v.hasOwnProperty(k)].  The method is looked up on the value first:
    a document object with an own field of that name shadows the
    inherited method with a value that cannot be called. *)
Definition hasOwnProperty (v : JsValue) (k : string) : completion bool :=
  match v with
  | JsUndefined | JsNull => Throw TypeError
  | JsObject props =>
      match get props "hasOwnProperty" with
      | Some _ => Throw TypeError
      | None => Normal (existsb (String.eqb k) (keys props))
      end
  | _ => Normal (existsb (String.eqb k) (keys (own_properties v)))
  end.

End JsObject.

(* ================================================================== *)
(** ** EndpointIndex construction *)

(** The endpoint tree: declared path, then the array of its method
    tokens, in enumeration order. *)
Definition EndpointIndex : Type := list (string * list string).

(** [swaggerObject.paths]. *)
Definition get_paths (swaggerObject : JsValue) : completion JsValue :=
  match swaggerObject with
  | JsUndefined | JsNull => Throw TypeError
  | JsObject props =>
      match JsObject.get props "paths" with
      | Some v => Normal v
      | None => Normal JsUndefined
      end
  | _ => Normal JsUndefined
  end.

(** [endpointTree[path] = methods].  The tree is an object literal, so
    the key [__proto__] reaches the inherited setter, which replaces the
    prototype by the array and creates no own property. *)
Definition assign_endpoint (endpointTree : EndpointIndex) (path : string)
           (methods : list string) : EndpointIndex :=
  if String.eqb path "__proto__" then endpointTree
  else JsObject.set endpointTree path methods.

(** The body of [for (const path in paths)], over the keys still to be
    visited.  The keys come in enumeration order, so each new key of the
    tree is enumerated after the ones already there. *)
Fixpoint extract_loop (paths : JsValue) (pending : list string)
         (endpointTree : EndpointIndex) : completion EndpointIndex :=
  match pending with
  | [] => Normal endpointTree
  | path :: pending' =>
      own <- JsObject.hasOwnProperty paths path ;;
      if (own : bool) then
        methods <- JsObject.keys_of_value (JsObject.member paths path) ;;
        extract_loop paths pending' (assign_endpoint endpointTree path methods)
      else extract_loop paths pending' endpointTree
  end.

Definition extractEndpointsWithMethods (swaggerObject : JsValue)
  : completion EndpointIndex :=
  paths <- get_paths swaggerObject ;;
  extract_loop paths (JsObject.keys (JsObject.own_properties paths)) [].

(* ================================================================== *)
(** ** OverlapDetector *)

(** Truthiness of a value that is a string, [null] or [false]: only a
    non-empty string is truthy. *)
Definition truthy (v : option string) : bool :=
  match v with
  | Some s => negb (String.eqb s EmptyString)
  | None => false
  end.

(** [methods.includes(m)]. *)
Definition includes (methods : list string) (m : string) : bool :=
  existsb (String.eqb m) methods.

Section EngineCaseMap.

(** [s.toLowerCase()], the case map of the engine. *)
Variable toLowerCase : string -> string.

(** [givenMethod ? givenMethod.toLowerCase() : null]. *)
Definition normalizeMethod (givenMethod : option string) : option string :=
  match givenMethod with
  | Some m => if truthy (Some m) then Some (toLowerCase m) else None
  | None => None
  end.

(** The test of one entry in [isPathOverlapping]; the right operand of
    [||] is only reached with a truthy method. *)
Definition entry_matches (givenPath : string)
           (normalizedGivenMethod : option string)
           (normalizedPath : string) (methods : list string) : bool :=
  (String.eqb givenPath normalizedPath
   || pathIncludesSegments givenPath normalizedPath)
  && (negb (truthy normalizedGivenMethod)
      || match normalizedGivenMethod with
         | Some m => includes methods m
         | None => false
         end).

(** The [for ... of Object.entries(existingPaths)] loop. *)
Fixpoint overlap_loop (givenPath : string)
         (normalizedGivenMethod : option string)
         (entries : EndpointIndex) : option string :=
  match entries with
  | [] => None
  | (path, methods) :: entries' =>
      let normalizedPath := normalizePath path in
      if entry_matches givenPath normalizedGivenMethod normalizedPath methods
      then Some normalizedPath
      else overlap_loop givenPath normalizedGivenMethod entries'
  end.

(** [isPathOverlapping]: the matched path, or nothing for [false]. *)
Definition isPathOverlapping (givenPath : string) (givenMethod : option string)
           (existingPaths : EndpointIndex) : option string :=
  let givenPath := normalizePath givenPath in
  let normalizedGivenMethod := normalizeMethod givenMethod in
  overlap_loop givenPath normalizedGivenMethod existingPaths.

Record OverlapRecord : Type := { path1 : string; path2 : string }.

(** [endpointsWithMethods[k]] for a key [k] taken from
    [Object.keys(endpointsWithMethods)], where the lookup cannot miss
    (lemma [methods_of_own_key] below). *)
Definition methods_of (endpointsWithMethods : EndpointIndex) (k : string)
  : list string :=
  match JsObject.get endpointsWithMethods k with
  | Some methods => methods
  | None => []
  end.

(** The inner [for (let i = index + 1; i < paths.length; i++)] loop, with
    [fuel] iterations left. *)
Fixpoint inner_loop (endpointsWithMethods : EndpointIndex)
         (paths : list string) (path : string) (i fuel : nat)
         (overlaps : list OverlapRecord) : list OverlapRecord :=
  match fuel with
  | O => overlaps
  | S fuel' =>
      let p := nth i paths EmptyString in
      let overlaps' :=
        if truthy (isPathOverlapping path None
                     [(p, methods_of endpointsWithMethods p)])
        then overlaps ++ [{| path1 := path; path2 := p |}]
        else overlaps in
      inner_loop endpointsWithMethods paths path (S i) fuel' overlaps'
  end.

(** [paths.forEach((path, index) => ...)], from [index], with [fuel]
    elements left. *)
Fixpoint forEach_loop (endpointsWithMethods : EndpointIndex)
         (paths : list string) (index fuel : nat)
         (overlaps : list OverlapRecord) : list OverlapRecord :=
  match fuel with
  | O => overlaps
  | S fuel' =>
      let path := nth index paths EmptyString in
      forEach_loop endpointsWithMethods paths (S index) fuel'
        (inner_loop endpointsWithMethods paths path (S index)
           (List.length paths - S index) overlaps)
  end.

Definition findOverlappingEndpoints (endpointsWithMethods : EndpointIndex)
  : list OverlapRecord :=
  let paths := JsObject.keys endpointsWithMethods in
  forEach_loop endpointsWithMethods paths 0 (List.length paths) [].

(* ================================================================== *)
(** ** The operations in the words of the specification *)

(** One position of the segment comparison. *)
Definition position_ok (givenSegments existingSegments : list string)
           (j : nat) : Prop :=
  nth j givenSegments EmptyString = nth j existingSegments EmptyString \/
  JsString.startsWith (nth j existingSegments EmptyString) "{" = true.

(** The matcher: equal numbers of tokens and, at every position,
    identical tokens or a token of the existing side that begins with an
    opening brace. *)
Definition segmentsOverlap_spec (candidate existing : string) : Prop :=
  let cs := JsString.split JsString.slash candidate in
  let es := JsString.split JsString.slash existing in
  List.length cs = List.length es /\
  forall i, (i < List.length cs)%nat -> position_ok cs es i.

(** The shape test of the single-candidate lookup. *)
Definition shape_matches (candidatePath key : string) : bool :=
  String.eqb candidatePath key || pathIncludesSegments candidatePath key.

(** The method test as the specification words it: the method is absent,
    or its lower-cased form is a member of the entry's tokens. *)
Definition method_accepted_spec (candidateMethod : option string)
           (methods : list string) : bool :=
  match candidateMethod with
  | None => true
  | Some m => includes methods (toLowerCase m)
  end.

(** The single-candidate lookup as the specification words it: the key
    of the first entry that passes both tests against the stored key. *)
Definition checkSingle_spec (candidatePath : string)
           (candidateMethod : option string) (index : EndpointIndex)
  : option string :=
  let candidatePath := normalizePath candidatePath in
  match find (fun e => shape_matches candidatePath (fst e)
                       && method_accepted_spec candidateMethod (snd e)) index
  with
  | Some e => Some (fst e)
  | None => None
  end.

(** The method test with the empty string counted as an absent method. *)
Definition method_accepted (candidateMethod : option string)
           (methods : list string) : bool :=
  match candidateMethod with
  | None => true
  | Some m =>
      if String.eqb m EmptyString then true
      else includes methods (toLowerCase m)
  end.

(** An entry passes: shape test against the normalised key, and the
    method test. *)
Definition entry_accepted (candidatePath : string)
           (candidateMethod : option string) (e : string * list string)
  : bool :=
  shape_matches (normalizePath candidatePath) (normalizePath (fst e))
  && method_accepted candidateMethod (snd e).

(** The lookup with keys normalised at comparison time: the normalised
    key of the first entry that passes. *)
Definition checkSingle_normalising (candidatePath : string)
           (candidateMethod : option string) (index : EndpointIndex)
  : option string :=
  match find (entry_accepted candidatePath candidateMethod) index with
  | Some e => Some (normalizePath (fst e))
  | None => None
  end.

(** What the all-pairs scan tests on a pair: the earlier key as the
    candidate, the later key as the existing route; a later key that
    normalises to the empty string is never reported. *)
Definition pair_reported (earlier later : string) : bool :=
  shape_matches (normalizePath earlier) (normalizePath later)
  && negb (String.eqb (normalizePath later) EmptyString).

(** What one run of the inner loop adds for [path]: the records of the
    positions from [i] on that pass the pair test. *)
Definition inner_reported (paths : list string) (path : string)
           (i fuel : nat) : list OverlapRecord :=
  map (fun j => {| path1 := path; path2 := nth j paths EmptyString |})
      (filter (fun j => pair_reported path (nth j paths EmptyString))
              (seq i fuel)).

(** All positions [(i, j)] with [i < j < n], the outer index ascending
    and, within it, the inner index ascending. *)
Definition position_pairs (n : nat) : list (nat * nat) :=
  flat_map (fun i => map (pair i) (seq (S i) (n - S i))) (seq 0 n).

(** The order of the report: by outer index, then by inner index. *)
Definition lex_lt (a b : nat * nat) : Prop :=
  fst a < fst b \/ (fst a = fst b /\ snd a < snd b).

Definition record_at (paths : list string) (ij : nat * nat) : OverlapRecord :=
  {| path1 := nth (fst ij) paths EmptyString;
     path2 := nth (snd ij) paths EmptyString |}.

(** The positions the scan reports, for the keys [paths]. *)
Definition reported_positions (paths : list string) : list (nat * nat) :=
  filter (fun ij => pair_reported (nth (fst ij) paths EmptyString)
                                  (nth (snd ij) paths EmptyString))
         (position_pairs (List.length paths)).

(** Two reports hold the same pairs when the order inside a pair is
    forgotten. *)
Definition same_unordered_pairs (o1 o2 : list OverlapRecord) : Prop :=
  forall a b,
    (In {| path1 := a; path2 := b |} o1 \/ In {| path1 := b; path2 := a |} o1)
    <->
    (In {| path1 := a; path2 := b |} o2 \/ In {| path1 := b; path2 := a |} o2).

(** The tokens stored under each key of [tree] are the own keys of the
    value that [paths] declares under it. *)
Definition holds_declared (paths : JsValue) (tree : EndpointIndex) : Prop :=
  forall k ms, In (k, ms) tree ->
    JsObject.keys_of_value (JsObject.member paths k) = Normal ms.

(** The tokens of an entry all hold an upper-case letter. *)
Definition all_upper (methods : list string) : Prop :=
  forall t, In t methods -> JsString.has_upper t = true.

(* ================================================================== *)
(** ** Console output *)

(** The styles the script prints with. *)
Inductive Style : Type := Red | Yellow | Green.

(** One call of [console.log] on a styled string. *)
Record ConsoleLine : Type := { style : Style; text : string }.

(** [displaySpecificOverlap]: the lines it prints.  The method comes from
    the command line, where it is a string. *)
Definition displaySpecificOverlap (path method : string)
           (endpoints : EndpointIndex) : list ConsoleLine :=
  let overlappingPath := isPathOverlapping path (Some method) endpoints in
  if truthy overlappingPath then
    [{| style := Red;
        text := ("Path '" ++ path ++ "' with method '" ++ method
                 ++ "' overlaps with '"
                 ++ match overlappingPath with
                    | Some s => s
                    | None => "false"
                    end ++ "'")%string |}]
  else
    [{| style := Green;
        text := ("Path '" ++ path ++ "' with method '" ++ method
                 ++ "' does not overlap.")%string |}].

(** [displayInternalOverlaps]: the lines it prints. *)
Definition displayInternalOverlaps (endpoints : EndpointIndex)
  : list ConsoleLine :=
  let overlaps := findOverlappingEndpoints endpoints in
  if (0 <? List.length overlaps)%nat then
    {| style := Red; text := "Overlapping endpoints found:" |}
      :: map (fun overlap =>
                {| style := Yellow;
                   text := ("- " ++ path1 overlap ++ " overlaps with "
                            ++ path2 overlap)%string |}) overlaps
  else
    [{| style := Green; text := "No internal overlapping endpoints found." |}].

(* ================================================================== *)
(** ** Vocabulary of the further properties *)

(** A character occurs in a string. *)
Fixpoint occurs (c : ascii) (s : string) : bool :=
  match s with
  | EmptyString => false
  | String c' r => (Ascii.eqb c' c || occurs c r)%bool
  end.

(** No token of the path begins with an opening brace. *)
Definition literal_path (p : string) : bool :=
  forallb (fun t => negb (JsString.startsWith t "{"))
          (JsString.split JsString.slash p).

(** [undefined] and [null]. *)
Definition nullish (v : JsValue) : bool :=
  match v with
  | JsUndefined | JsNull => true
  | _ => false
  end.

(** The path collection is an object with an own field named
    [hasOwnProperty]. *)
Definition shadows_hasOwnProperty (paths : JsValue) : bool :=
  match paths with
  | JsObject props =>
      match JsObject.get props "hasOwnProperty" with
      | Some _ => true
      | None => false
      end
  | _ => false
  end.

(** Some key of the path collection holds [null] or [undefined]. *)
Definition declares_nullish (paths : JsValue) : bool :=
  existsb (fun k => nullish (JsObject.member paths k))
          (JsObject.keys (JsObject.own_properties paths)).

(** The keys of the path collection that become keys of the tree. *)
Definition stored_keys (paths : JsValue) : list string :=
  filter (fun k => negb (String.eqb k "__proto__"))
         (JsObject.keys (JsObject.own_properties paths)).

(** The entry the tree holds for a declared key. *)
Definition declared_entry (paths : JsValue) (k : string)
  : string * list string :=
  (k, JsObject.keys (JsObject.own_properties (JsObject.member paths k))).

End EngineCaseMap.

(* ================================================================== *)
(** * Properties *)

Section Properties.

(** The case map of the engine.  The properties that depend on what
    [toLowerCase] returns name the law they use: on a string of ASCII
    characters it is the map of the letters A to Z; it keeps a non-empty
    string non-empty; applying it twice is applying it once; its result
    holds none of the letters A to Z. *)
Variable toLowerCase : string -> string.

Hypothesis toLowerCase_ascii :
  forall s, JsString.is_ascii s = true ->
            toLowerCase s = JsString.ascii_lower s.

Hypothesis toLowerCase_nonempty :
  forall s, s <> EmptyString -> toLowerCase s <> EmptyString.

Hypothesis toLowerCase_idempotent :
  forall s, toLowerCase (toLowerCase s) = toLowerCase s.

Hypothesis toLowerCase_no_upper :
  forall s, JsString.has_upper (toLowerCase s) = false.

(** ** The script on small inputs *)

Example split_root :
  JsString.split JsString.slash "/a/b" = [EmptyString; "a"; "b"].
Proof. reflexivity. Qed.

Example split_empty : JsString.split JsString.slash EmptyString = [EmptyString].
Proof. reflexivity. Qed.

Example split_trailing :
  JsString.split JsString.slash "/a/" = [EmptyString; "a"; EmptyString].
Proof. reflexivity. Qed.

Example normalize_trailing :
  normalizePath "/a/b/" = "/a/b" /\ normalizePath "/a/b" = "/a/b".
Proof. split; reflexivity. Qed.

Example overlap_param_existing : pathIncludesSegments "/a/b" "/a/{id}" = true.
Proof. reflexivity. Qed.

Example overlap_param_given : pathIncludesSegments "/a/{id}" "/a/b" = false.
Proof. reflexivity. Qed.

Example overlap_lengths : pathIncludesSegments "/a/b/c" "/a/b" = false.
Proof. reflexivity. Qed.

Example lower_mixed : JsString.ascii_lower "GeT" = "get".
Proof. reflexivity. Qed.

Example lookup_get :
  isPathOverlapping JsString.ascii_lower "/a/b" (Some "get")
                    [("/a/{id}", ["get"; "post"])]
  = Some "/a/{id}".
Proof. reflexivity. Qed.

Example lookup_upper_query :
  isPathOverlapping JsString.ascii_lower "/a/b/" (Some "POST")
                    [("/a/{id}", ["get"; "post"])]
  = Some "/a/{id}".
Proof. reflexivity. Qed.

Example extract_null_document :
  extractEndpointsWithMethods JsNull = Throw TypeError.
Proof. reflexivity. Qed.

Example extract_null_methods :
  extractEndpointsWithMethods
    (JsObject [("paths", JsObject [("/a", JsNull)])]) = Throw TypeError.
Proof. reflexivity. Qed.

Example extract_string_paths :
  extractEndpointsWithMethods (JsObject [("paths", JsString "ab")])
  = Normal [("0", ["0"]); ("1", ["0"])].
Proof. reflexivity. Qed.

Example scan_empty_key :
  findOverlappingEndpoints JsString.ascii_lower
    [(EmptyString, ["get"]); ("/", ["get"])] = [].
Proof. reflexivity. Qed.

(** ** Strings and normalisation *)

Section StringFacts.

Local Open Scope bool_scope.

Lemma eqb_cons_slash (c : ascii) (r : string) :
  String.eqb (String c r) "/"
  = Ascii.eqb c JsString.slash && String.eqb r EmptyString.
Proof.
  unfold JsString.slash. simpl.
  destruct (Ascii.eqb c "/"); [destruct r|]; reflexivity.
Qed.

Lemma endsWith_cons (c : ascii) (r p : string) :
  JsString.endsWith (String c r) p
  = String.eqb (String c r) p || JsString.endsWith r p.
Proof. reflexivity. Qed.

Lemma endsWith_spec (s p : string) :
  JsString.endsWith s p = true <-> exists q, s = (q ++ p)%string.
Proof.
  induction s as [|c r IH].
  - change (JsString.endsWith EmptyString p)
      with (String.eqb EmptyString p || false).
    rewrite orb_false_r, String.eqb_eq. split.
    + intros <-. now exists EmptyString.
    + intros [q Hq]. destruct q; simpl in Hq; [assumption|discriminate].
  - rewrite endsWith_cons, orb_true_iff, String.eqb_eq, IH. split.
    + intros [<- | [q ->]]; [now exists EmptyString | now exists (String c q)].
    + intros [q Hq]. destruct q as [|c' q]; simpl in Hq.
      * now left.
      * right. injection Hq as _ ->. now exists q.
Qed.

Lemma normalizePath_snoc (q : string) : normalizePath (q ++ "/")%string = q.
Proof.
  induction q as [|c q IH]; [reflexivity|].
  simpl. replace (String.eqb (q ++ "/")%string EmptyString) with false
    by (destruct q; reflexivity).
  now rewrite andb_false_r, IH.
Qed.

(** The fixed points of [normalizePath] are the strings with no
    trailing slash. *)
Lemma normalizePath_fixed (p : string) :
  normalizePath p = p <-> JsString.endsWith p "/" = false.
Proof.
  induction p as [|c r IH]; [now split|].
  rewrite endsWith_cons, eqb_cons_slash. simpl.
  destruct (Ascii.eqb c JsString.slash && String.eqb r EmptyString).
  - split; discriminate.
  - simpl. rewrite <- IH. split; [now intros [= ->] | now intros ->].
Qed.

Lemma normalizePath_empty (p : string) :
  String.eqb (normalizePath p) EmptyString
  = String.eqb p EmptyString || String.eqb p "/".
Proof.
  destruct p as [|c r]; [reflexivity|].
  rewrite eqb_cons_slash. simpl.
  now destruct (Ascii.eqb c JsString.slash && String.eqb r EmptyString).
Qed.

(** What is left after one trailing slash is gone ends in a slash
    exactly when the input ended in two. *)
Lemma endsWith_normalizePath (p : string) :
  JsString.endsWith (normalizePath p) "/" = JsString.endsWith p "//".
Proof.
  induction p as [|c r IH]; [reflexivity|].
  rewrite endsWith_cons. simpl normalizePath.
  destruct (Ascii.eqb c JsString.slash && String.eqb r EmptyString) eqn:E.
  - apply andb_true_iff in E as [Hc Hr].
    apply String.eqb_eq in Hr as ->.
    apply Ascii.eqb_eq in Hc as ->. reflexivity.
  - rewrite endsWith_cons, eqb_cons_slash, IH, normalizePath_empty.
    f_equal. simpl String.eqb at 3.
    unfold JsString.slash in *.
    destruct (Ascii.eqb c "/"); [|reflexivity].
    simpl in E. rewrite E. reflexivity.
Qed.

Lemma normalizePath_idempotent_iff (p : string) :
  normalizePath (normalizePath p) = normalizePath p
  <-> JsString.endsWith p "//" = false.
Proof. now rewrite normalizePath_fixed, endsWith_normalizePath. Qed.

(** Lower-casing leaves no upper-case letter behind. *)
Lemma lower_ascii_not_upper (c : ascii) :
  JsString.is_upper (JsString.lower_ascii c) = false.
Proof.
  unfold JsString.lower_ascii.
  destruct (JsString.is_upper c) eqn:E; [|assumption].
  unfold JsString.is_upper in *.
  apply andb_true_iff in E as [E1 E2].
  apply Nat.leb_le in E1, E2.
  rewrite nat_ascii_embedding by lia.
  apply andb_false_iff. right. apply Nat.leb_gt. lia.
Qed.

Lemma ascii_lower_no_upper (s : string) :
  JsString.has_upper (JsString.ascii_lower s) = false.
Proof.
  induction s as [|c r IH]; [reflexivity|].
  simpl. now rewrite lower_ascii_not_upper, IH.
Qed.

End StringFacts.

(** ** The segment loop *)

Section SegmentFacts.

Variables givenSegments existingSegments : list string.

Lemma segments_loop_true (i fuel : nat) :
  segments_loop givenSegments existingSegments i fuel = true
  <-> forall j, i <= j < i + fuel ->
      position_ok givenSegments existingSegments j.
Proof.
  revert i. induction fuel as [|fuel IH]; intros i.
  - simpl. split; [intros _ j Hj; lia | reflexivity].
  - simpl.
    destruct (String.eqb_spec (nth i givenSegments EmptyString)
                              (nth i existingSegments EmptyString)) as [Heq|Hne];
      simpl.
    + rewrite IH. split; intros H j Hj.
      * destruct (Nat.eq_dec j i) as [->|]; [now left | apply H; lia].
      * apply H; lia.
    + destruct (JsString.startsWith (nth i existingSegments EmptyString) "{") eqn:Hs;
        simpl.
      * rewrite IH. split; intros H j Hj.
        -- destruct (Nat.eq_dec j i) as [->|]; [now right | apply H; lia].
        -- apply H; lia.
      * split; [discriminate|]. intros H.
        destruct (H i) as [Hc|Hc]; [lia | contradiction | congruence].
Qed.

End SegmentFacts.

Lemma pathIncludesSegments_iff (candidate existing : string) :
  pathIncludesSegments candidate existing = true
  <-> segmentsOverlap_spec candidate existing.
Proof.
  unfold pathIncludesSegments, segmentsOverlap_spec.
  destruct (Nat.eqb_spec
              (List.length (JsString.split JsString.slash candidate))
              (List.length (JsString.split JsString.slash existing)))
    as [Hlen|Hlen]; simpl.
  - rewrite segments_loop_true. unfold position_ok. split.
    + intros H. split; [assumption|]. intros i Hi. apply H. lia.
    + intros [_ H] j Hj. apply H. lia.
  - split; [discriminate | intros [Hc _]; contradiction].
Qed.

(** C4, amended.  [normalizePath] removes one trailing slash when there
    is one and otherwise returns its argument unchanged; applying it twice
    gives the same as applying it once exactly for the strings that do not
    end in two slashes. *)
Theorem normalizePath_strips_one_slash (p : string) :
  (forall q, p = (q ++ "/")%string -> normalizePath p = q)
  /\ (JsString.endsWith p "/" = false -> normalizePath p = p)
  /\ (normalizePath (normalizePath p) = normalizePath p
      <-> JsString.endsWith p "//" = false).
Proof.
  split; [|split].
  - intros q ->. apply normalizePath_snoc.
  - apply normalizePath_fixed.
  - apply normalizePath_idempotent_iff.
Qed.

(** C4 as stated fails: a path that ends in two slashes loses one slash
    at each application. *)
Lemma normalizePath_not_idempotent :
  normalizePath (normalizePath "/a//") <> normalizePath "/a//".
Proof. discriminate. Qed.

(** C5.  [pathIncludesSegments] answers true exactly when both paths
    split into the same number of tokens and every position holds
    identical tokens or an existing-side token that begins with an opening
    brace; it answers false whenever the numbers of tokens differ, and
    whenever some position holds different tokens and the existing-side
    token does not begin with a brace, whatever the candidate-side token
    is. *)
Theorem pathIncludesSegments_spec (candidate existing : string) :
  let cs := JsString.split JsString.slash candidate in
  let es := JsString.split JsString.slash existing in
  (pathIncludesSegments candidate existing = true
   <-> (List.length cs = List.length es
        /\ forall i, i < List.length cs ->
             nth i cs EmptyString = nth i es EmptyString
             \/ JsString.startsWith (nth i es EmptyString) "{" = true))
  /\ (List.length cs <> List.length es ->
      pathIncludesSegments candidate existing = false)
  /\ (forall i, i < List.length cs ->
        nth i cs EmptyString <> nth i es EmptyString ->
        JsString.startsWith (nth i es EmptyString) "{" = false ->
        pathIncludesSegments candidate existing = false).
Proof.
  intros cs es. split; [|split].
  - apply pathIncludesSegments_iff.
  - intros Hlen. apply not_true_is_false. intros H.
    apply pathIncludesSegments_iff in H as [H _]. contradiction.
  - intros i Hi Hne Hs. apply not_true_is_false. intros H.
    apply pathIncludesSegments_iff in H as [_ H].
    destruct (H i Hi) as [Hc|Hc]; [contradiction|].
    fold es in Hc. congruence.
Qed.

(** ** The single-candidate lookup *)

Section LookupFacts.

Local Open Scope bool_scope.

Lemma normalizeMethod_some (m : string) :
  normalizeMethod toLowerCase (Some m)
  = if String.eqb m EmptyString then None else Some (toLowerCase m).
Proof.
  unfold normalizeMethod, truthy. now destruct (String.eqb m EmptyString).
Qed.

(** The test of the loop is the shape test and the method test. *)
Lemma entry_matches_accepted (p : string) (m : option string)
      (k : string) (ms : list string) :
  entry_matches (normalizePath p) (normalizeMethod toLowerCase m)
                (normalizePath k) ms
  = entry_accepted toLowerCase p m (k, ms).
Proof.
  unfold entry_matches, entry_accepted, shape_matches, method_accepted.
  simpl. f_equal. destruct m as [m|]; [|reflexivity].
  rewrite normalizeMethod_some.
  destruct (String.eqb_spec m EmptyString) as [E|E]; [reflexivity|].
  unfold truthy. apply toLowerCase_nonempty, String.eqb_neq in E.
  now rewrite E.
Qed.

Lemma overlap_loop_find (p : string) (m : option string)
      (index : EndpointIndex) :
  overlap_loop (normalizePath p) (normalizeMethod toLowerCase m) index
  = checkSingle_normalising toLowerCase p m index.
Proof.
  unfold checkSingle_normalising.
  induction index as [|[k ms] index IH]; [reflexivity|].
  simpl. rewrite entry_matches_accepted.
  destruct (entry_accepted toLowerCase p m (k, ms)); [reflexivity | exact IH].
Qed.

(** [find] by the position of what it finds. *)
Lemma find_first {A : Type} (f : A -> bool) (l : list A) (x : A) :
  find f l = Some x
  <-> exists before after,
        l = before ++ x :: after /\ f x = true
        /\ forall y, In y before -> f y = false.
Proof.
  induction l as [|a l IH]; simpl.
  - split; [discriminate|]. intros (before & after & H & _).
    destruct before; discriminate.
  - destruct (f a) eqn:Ha.
    + split.
      * intros [= <-]. exists [], l. now repeat split.
      * intros (before & after & H & Hx & Hb).
        destruct before as [|b before]; simpl in H.
        -- now injection H as ->.
        -- injection H as -> _. rewrite (Hb b) in Ha by now left.
           discriminate.
    + rewrite IH. split.
      * intros (before & after & -> & Hx & Hb).
        exists (a :: before), after. repeat split; [assumption|].
        intros y [<-|Hy]; [assumption | now apply Hb].
      * intros (before & after & H & Hx & Hb).
        destruct before as [|b before]; simpl in H.
        -- injection H as -> _. congruence.
        -- injection H as _ ->. exists before, after.
           repeat split; [assumption|]. intros y Hy. apply Hb. now right.
Qed.

Lemma find_none_iff {A : Type} (f : A -> bool) (l : list A) :
  find f l = None <-> forall y, In y l -> f y = false.
Proof.
  split; [apply find_none|].
  induction l as [|a l IH]; intros H; [reflexivity|].
  simpl. rewrite (H a) by now left. apply IH. intros y Hy. apply H.
  now right.
Qed.

(** With no method the loop stops at the first entry that passes the
    shape test. *)
Lemma overlap_loop_no_method (givenPath : string) (index : EndpointIndex) :
  overlap_loop givenPath None index
  = match find (fun e => shape_matches givenPath (normalizePath (fst e)))
               index with
    | Some e => Some (normalizePath (fst e))
    | None => None
    end.
Proof.
  induction index as [|[k ms] index IH]; [reflexivity|].
  simpl. unfold entry_matches. simpl. rewrite andb_true_r.
  fold (shape_matches givenPath (normalizePath k)).
  destruct (shape_matches givenPath (normalizePath k));
    [reflexivity | exact IH].
Qed.

Lemma find_pointwise {A : Type} (f g : A -> bool) (l : list A) :
  (forall x, f x = g x) -> find f l = find g l.
Proof.
  intros H. induction l as [|a l IH]; [reflexivity|].
  simpl. now rewrite H, IH.
Qed.

End LookupFacts.

(** C6, amended.  [isPathOverlapping] normalises the candidate path,
    visits the entries in order and returns the normalised key of the
    first entry whose normalised key passes the shape test and whose
    tokens pass the method test, where an empty candidate method counts as
    an absent one; it returns nothing when no entry passes.  The returned
    path is the stored key itself when that key has no trailing slash.
    Of the case map the proof uses one law: a non-empty method stays
    non-empty when lower-cased. *)
Theorem isPathOverlapping_first_match
        (candidatePath : string) (candidateMethod : option string)
        (index : EndpointIndex) :
  isPathOverlapping toLowerCase candidatePath candidateMethod index
  = checkSingle_normalising toLowerCase candidatePath candidateMethod index
  /\ (forall r,
        isPathOverlapping toLowerCase candidatePath candidateMethod index
        = Some r
        <-> exists before k ms after,
              index = before ++ (k, ms) :: after
              /\ r = normalizePath k
              /\ entry_accepted toLowerCase candidatePath candidateMethod
                                (k, ms) = true
              /\ forall e, In e before ->
                   entry_accepted toLowerCase candidatePath candidateMethod e
                   = false)
  /\ (isPathOverlapping toLowerCase candidatePath candidateMethod index = None
      <-> forall e, In e index ->
            entry_accepted toLowerCase candidatePath candidateMethod e = false)
  /\ (forall k ms r,
        isPathOverlapping toLowerCase candidatePath candidateMethod index
        = Some r ->
        find (entry_accepted toLowerCase candidatePath candidateMethod) index
        = Some (k, ms) ->
        JsString.endsWith k "/" = false -> r = k).
Proof.
  assert (E : isPathOverlapping toLowerCase candidatePath candidateMethod index
              = checkSingle_normalising toLowerCase candidatePath
                                        candidateMethod index)
    by apply overlap_loop_find.
  split; [exact E|]. rewrite E. unfold checkSingle_normalising.
  split; [|split].
  - intros r. split.
    + destruct (find _ index) as [[k ms]|] eqn:F; [|discriminate].
      intros [= <-]. apply find_first in F as (before & after & H & Hx & Hb).
      now exists before, k, ms, after.
    + intros (before & k & ms & after & H & -> & Hx & Hb).
      assert (F : find (entry_accepted toLowerCase candidatePath
                                       candidateMethod) index
                  = Some (k, ms))
        by (apply find_first; now exists before, after).
      now rewrite F.
  - rewrite <- find_none_iff.
    destruct (find _ index); split; congruence.
  - intros k ms r H F Hk. rewrite F in H. injection H as <-.
    now apply normalizePath_fixed.
Qed.

(** C6 as stated fails in two ways: an empty candidate method skips the
    method test, and a stored key with a trailing slash is compared and
    returned in its normalised form. *)
Lemma isPathOverlapping_not_spec :
  isPathOverlapping JsString.ascii_lower "/a" (Some EmptyString)
                    [("/a", ["get"])]
    <> checkSingle_spec JsString.ascii_lower "/a" (Some EmptyString)
                        [("/a", ["get"])]
  /\ isPathOverlapping JsString.ascii_lower "/a" None [("/a/", ["get"])]
    <> checkSingle_spec JsString.ascii_lower "/a" None [("/a/", ["get"])].
Proof. split; discriminate. Qed.

(** C10.  An empty candidate method is handled as an absent one: both
    calls return the same, namely the normalised key of the first entry
    that passes the shape test, whatever its tokens are. *)
Theorem isPathOverlapping_empty_method
        (candidatePath : string) (index : EndpointIndex) :
  isPathOverlapping toLowerCase candidatePath (Some EmptyString) index
  = isPathOverlapping toLowerCase candidatePath None index
  /\ isPathOverlapping toLowerCase candidatePath (Some EmptyString) index
     = match find (fun e => shape_matches (normalizePath candidatePath)
                                          (normalizePath (fst e))) index with
       | Some e => Some (normalizePath (fst e))
       | None => None
       end.
Proof.
  split; [reflexivity|]. apply overlap_loop_no_method.
Qed.

(** ** Method tokens and letter case *)

Lemma includes_lowered_upper (methods : list string) (m : string) :
  all_upper methods -> includes methods (toLowerCase m) = false.
Proof.
  intros Hup. apply not_true_is_false. intros H.
  apply existsb_exists in H as (t & Ht & E).
  apply String.eqb_eq in E. subst t.
  apply Hup in Ht. rewrite toLowerCase_no_upper in Ht. discriminate.
Qed.

Lemma upper_entry_rejected (p m : string) (e : string * list string) :
  m <> EmptyString -> all_upper (snd e) ->
  entry_accepted toLowerCase p (Some m) e = false.
Proof.
  intros Hm Hup. unfold entry_accepted, method_accepted.
  apply String.eqb_neq in Hm. rewrite Hm.
  rewrite includes_lowered_upper by assumption. apply andb_false_r.
Qed.

(** ** The all-pairs scan *)

Section ScanFacts.

Local Open Scope bool_scope.

(** With no method given, the one-entry lookup of the scan is the pair
    test, whatever the tokens of the entry are. *)
Lemma single_entry_lookup (path p : string) (methods : list string) :
  truthy (isPathOverlapping toLowerCase path None [(p, methods)])
  = pair_reported path p.
Proof.
  unfold isPathOverlapping, pair_reported, shape_matches. simpl.
  unfold entry_matches. simpl. rewrite andb_true_r.
  destruct (String.eqb (normalizePath path) (normalizePath p)
            || pathIncludesSegments (normalizePath path) (normalizePath p));
    reflexivity.
Qed.

Variable endpointsWithMethods : EndpointIndex.
Variable paths : list string.

Lemma inner_loop_reported (path : string) (i fuel : nat)
      (overlaps : list OverlapRecord) :
  inner_loop toLowerCase endpointsWithMethods paths path i fuel overlaps
  = overlaps ++ inner_reported paths path i fuel.
Proof.
  revert i overlaps. induction fuel as [|fuel IH]; intros i overlaps.
  - simpl. now rewrite app_nil_r.
  - simpl inner_loop. rewrite IH, single_entry_lookup.
    unfold inner_reported. simpl.
    destruct (pair_reported path (nth i paths EmptyString)); simpl.
    + now rewrite <- app_assoc.
    + reflexivity.
Qed.

Lemma forEach_loop_reported (index fuel : nat)
      (overlaps : list OverlapRecord) :
  forEach_loop toLowerCase endpointsWithMethods paths index fuel overlaps
  = overlaps
    ++ flat_map (fun i => inner_reported paths (nth i paths EmptyString) (S i)
                            (List.length paths - S i))
                (seq index fuel).
Proof.
  revert index overlaps. induction fuel as [|fuel IH]; intros index overlaps.
  - simpl. now rewrite app_nil_r.
  - simpl. rewrite IH, inner_loop_reported. now rewrite <- app_assoc.
Qed.

End ScanFacts.

Section PositionFacts.

Lemma in_position_pairs (n i j : nat) :
  In (i, j) (position_pairs n) <-> i < j < n.
Proof.
  unfold position_pairs. rewrite in_flat_map. split.
  - intros (x & Hx & H). apply in_map_iff in H as (y & [= <- <-] & Hy).
    apply in_seq in Hx, Hy. lia.
  - intros H. exists i. split; [apply in_seq; lia|].
    apply in_map_iff. exists j. split; [reflexivity | apply in_seq; lia].
Qed.

Lemma sorted_app {A : Type} (R : A -> A -> Prop) (l1 l2 : list A) :
  StronglySorted R l1 -> StronglySorted R l2 ->
  (forall x y, In x l1 -> In y l2 -> R x y) ->
  StronglySorted R (l1 ++ l2).
Proof.
  intros H1 H2 H. induction H1 as [|a l1 Hs IH Ha]; [assumption|].
  simpl. constructor.
  - apply IH. intros x y Hx. apply H. now right.
  - apply Forall_app. split; [assumption|].
    apply Forall_forall. intros y Hy. apply H; [now left | assumption].
Qed.

Lemma sorted_filter {A : Type} (R : A -> A -> Prop) (f : A -> bool)
      (l : list A) :
  StronglySorted R l -> StronglySorted R (filter f l).
Proof.
  induction 1 as [|a l Hs IH Ha]; simpl; [constructor|].
  destruct (f a); [|assumption]. constructor; [assumption|].
  rewrite Forall_forall in *. intros y Hy. apply Ha.
  now apply filter_In in Hy.
Qed.

Lemma sorted_row (i a k : nat) :
  StronglySorted lex_lt (map (pair i) (seq a k)).
Proof.
  revert a. induction k as [|k IH]; intros a; simpl; constructor.
  - apply IH.
  - apply Forall_forall. intros y Hy.
    apply in_map_iff in Hy as (j & <- & Hj). apply in_seq in Hj.
    right. simpl. lia.
Qed.

Lemma sorted_rows (n a k : nat) :
  StronglySorted lex_lt
    (flat_map (fun i => map (pair i) (seq (S i) (n - S i))) (seq a k)).
Proof.
  revert a. induction k as [|k IH]; intros a; simpl; [constructor|].
  apply sorted_app; [apply sorted_row | apply IH |].
  intros x y Hx Hy.
  apply in_map_iff in Hx as (j & <- & _).
  apply in_flat_map in Hy as (i & Hi & Hy).
  apply in_map_iff in Hy as (j' & <- & _). apply in_seq in Hi.
  left. simpl. lia.
Qed.

Lemma sorted_position_pairs (n : nat) :
  StronglySorted lex_lt (position_pairs n).
Proof. apply sorted_rows. Qed.

Lemma filter_flat_map_rows {A B : Type} (f : B -> bool) (g : A -> list B)
      (l : list A) :
  filter f (flat_map g l) = flat_map (fun x => filter f (g x)) l.
Proof.
  induction l as [|a l IH]; [reflexivity|].
  simpl. now rewrite filter_app, IH.
Qed.

Lemma map_flat_map_rows {A B C : Type} (h : B -> C) (g : A -> list B)
      (l : list A) :
  map h (flat_map g l) = flat_map (fun x => map h (g x)) l.
Proof.
  induction l as [|a l IH]; [reflexivity|].
  simpl. now rewrite map_app, IH.
Qed.

Lemma filter_map_row {A B : Type} (f : B -> bool) (h : A -> B)
      (l : list A) :
  filter f (map h l) = map h (filter (fun x => f (h x)) l).
Proof.
  induction l as [|a l IH]; [reflexivity|].
  simpl. destruct (f (h a)); simpl; now rewrite IH.
Qed.

End PositionFacts.

(** The scan is a function of the keys alone: it reports the positions
    that pass the pair test, row by row. *)
Lemma findOverlappingEndpoints_positions (index : EndpointIndex) :
  findOverlappingEndpoints toLowerCase index
  = map (record_at (JsObject.keys index))
        (reported_positions (JsObject.keys index)).
Proof.
  unfold findOverlappingEndpoints. rewrite forEach_loop_reported. simpl.
  unfold reported_positions, position_pairs.
  rewrite filter_flat_map_rows, map_flat_map_rows.
  apply flat_map_ext. intros i.
  rewrite filter_map_row, map_map. reflexivity.
Qed.

Lemma in_reported_positions (paths : list string) (i j : nat) :
  In (i, j) (reported_positions paths)
  <-> i < j < List.length paths
      /\ pair_reported (nth i paths EmptyString) (nth j paths EmptyString) = true.
Proof.
  unfold reported_positions. rewrite filter_In, in_position_pairs.
  reflexivity.
Qed.

(** C7.  The scan never looks at method tokens: two indexes with the same
    keys in the same order give the same report.  The report lists the
    positions [(i, j)], [i < j], whose keys pass the pair test, by
    ascending outer index and, within it, ascending inner index. *)
Theorem findOverlappingEndpoints_method_agnostic (index1 index2 : EndpointIndex)
        (Hkeys : JsObject.keys index1 = JsObject.keys index2) :
  let paths := JsObject.keys index1 in
  findOverlappingEndpoints toLowerCase index1
  = findOverlappingEndpoints toLowerCase index2
  /\ findOverlappingEndpoints toLowerCase index1
     = map (record_at paths) (reported_positions paths)
  /\ StronglySorted lex_lt (reported_positions paths)
  /\ (forall i j,
        In (i, j) (reported_positions paths)
        <-> i < j < List.length paths
            /\ pair_reported (nth i paths EmptyString) (nth j paths EmptyString) = true).
Proof.
  intros paths. split; [|split; [|split]].
  - now rewrite !findOverlappingEndpoints_positions, Hkeys.
  - apply findOverlappingEndpoints_positions.
  - apply sorted_filter, sorted_position_pairs.
  - intros i j. apply in_reported_positions.
Qed.

(** C9.  The report depends on the order of the keys: the keys [/a/b]
    and [/a/{id}] are reported as a pair when [/a/b] comes first and not
    at all when [/a/{id}] comes first, although both indexes hold the same
    keys.  Every record of a report has passed the pair test with its
    first path, the earlier key, as the candidate and its second path as
    the existing route. *)
Theorem findOverlappingEndpoints_order_dependent :
  (exists index1 index2 : EndpointIndex,
      Permutation (JsObject.keys index1) (JsObject.keys index2)
      /\ ~ same_unordered_pairs (findOverlappingEndpoints toLowerCase index1)
                                (findOverlappingEndpoints toLowerCase index2))
  /\ (forall ms1 ms2 : list string,
        findOverlappingEndpoints toLowerCase [("/a/b", ms1); ("/a/{id}", ms2)]
        = [{| path1 := "/a/b"; path2 := "/a/{id}" |}]
        /\ findOverlappingEndpoints toLowerCase
             [("/a/{id}", ms2); ("/a/b", ms1)] = [])
  /\ (forall (index : EndpointIndex) (r : OverlapRecord),
        In r (findOverlappingEndpoints toLowerCase index) ->
        exists i j,
          i < j < List.length (JsObject.keys index)
          /\ path1 r = nth i (JsObject.keys index) EmptyString
          /\ path2 r = nth j (JsObject.keys index) EmptyString
          /\ pair_reported (path1 r) (path2 r) = true).
Proof.
  split; [|split].
  - exists [("/a/b", ["get"]); ("/a/{id}", ["get"])],
           [("/a/{id}", ["get"]); ("/a/b", ["get"])].
    split; [apply perm_swap|].
    intros H. destruct (H "/a/b" "/a/{id}") as [H1 _].
    destruct H1 as [[]|[]]. left. now left.
  - intros ms1 ms2.
    rewrite !findOverlappingEndpoints_positions. split; reflexivity.
  - intros index r Hr.
    rewrite findOverlappingEndpoints_positions in Hr.
    apply in_map_iff in Hr as ([i j] & <- & Hij).
    apply in_reported_positions in Hij as [Hlt Hp].
    exists i, j. now repeat split.
Qed.

(** C1.  For a document that declares [/a/{id}], [/a/b] and [/c] in this
    order, the index holds the three keys in this order and the scan
    reports nothing: the pair is tested with [/a/{id}] as the candidate
    only, and a brace token of the candidate absorbs nothing.  With
    [/a/b] declared first the pair is reported. *)
Theorem findOverlappingEndpoints_param_first
        (o1 o2 o3 : list (string * JsValue)) :
  let paths := JsObject [("/a/{id}", JsObject o1); ("/a/b", JsObject o2);
                         ("/c", JsObject o3)] in
  let index := [("/a/{id}", JsObject.keys o1); ("/a/b", JsObject.keys o2);
                ("/c", JsObject.keys o3)] in
  extractEndpointsWithMethods (JsObject [("paths", paths)]) = Normal index
  /\ findOverlappingEndpoints toLowerCase index = []
  /\ findOverlappingEndpoints toLowerCase
       [("/a/b", JsObject.keys o2); ("/a/{id}", JsObject.keys o1);
        ("/c", JsObject.keys o3)]
     = [{| path1 := "/a/b"; path2 := "/a/{id}" |}].
Proof.
  intros paths index. split; [reflexivity|].
  unfold index. rewrite !findOverlappingEndpoints_positions.
  split; reflexivity.
Qed.

(** ** Index construction *)

Section BuildFacts.

Lemma get_own_key {V : Type} (o : list (string * V)) (k : string) :
  In k (JsObject.keys o) -> exists v, JsObject.get o k = Some v.
Proof.
  induction o as [|[k' v'] o IH]; simpl; [contradiction|].
  intros [->|H].
  - rewrite String.eqb_refl. now exists v'.
  - destruct (String.eqb k' k); [now exists v' | now apply IH].
Qed.

(** The lookup of the scan cannot miss. *)
Lemma methods_of_own_key (index : EndpointIndex) (k : string) :
  In k (JsObject.keys index) ->
  JsObject.get index k = Some (methods_of index k).
Proof.
  intros H. apply get_own_key in H as [v Hv].
  unfold methods_of. now rewrite Hv.
Qed.

Lemma in_set {V : Type} (o : list (string * V)) (k : string) (v : V)
      (e : string * V) :
  In e (JsObject.set o k v) -> e = (k, v) \/ In e o.
Proof.
  induction o as [|[k' v'] o IH]; simpl.
  - intros [<-|[]]. now left.
  - destruct (String.eqb_spec k' k) as [->|Hne]; simpl.
    + intros [<-|H]; [now left | right; now right].
    + intros [<-|H]; [right; now left|].
      destruct (IH H) as [->|H']; [now left | right; now right].
Qed.

Lemma keys_set {V : Type} (o : list (string * V)) (k : string) (v : V)
      (k0 : string) :
  In k0 (JsObject.keys (JsObject.set o k v))
  <-> k0 = k \/ In k0 (JsObject.keys o).
Proof.
  induction o as [|[k' v'] o IH]; simpl.
  - intuition.
  - destruct (String.eqb_spec k' k) as [->|Hne]; simpl.
    + intuition.
    + rewrite IH. intuition.
Qed.

Lemma hasOwnProperty_own (paths : JsValue) (k : string) (b : bool) :
  JsObject.hasOwnProperty paths k = Normal b ->
  In k (JsObject.keys (JsObject.own_properties paths)) -> b = true.
Proof.
  intros H Hk.
  assert (E : existsb (String.eqb k)
                (JsObject.keys (JsObject.own_properties paths)) = true).
  { apply existsb_exists. exists k. split; [assumption|].
    apply String.eqb_refl. }
  destruct paths; simpl in *; try congruence.
  destruct (JsObject.get props "hasOwnProperty"); congruence.
Qed.

Variable paths : JsValue.

Lemma extract_loop_methods (pending : list string)
      (tree index : EndpointIndex) :
  extract_loop paths pending tree = Normal index ->
  holds_declared paths tree -> holds_declared paths index.
Proof.
  revert tree. induction pending as [|path pending IH]; intros tree; simpl.
  - now intros [= ->].
  - destruct (JsObject.hasOwnProperty paths path) as [[|]|]; simpl;
      [|apply IH|discriminate].
    destruct (JsObject.keys_of_value (JsObject.member paths path))
      as [methods|] eqn:E; simpl; [|discriminate].
    intros H Ht. apply (IH _ H). intros k ms Hin.
    unfold assign_endpoint in Hin.
    destruct (String.eqb path "__proto__"); [now apply Ht|].
    apply in_set in Hin as [[= -> ->]|Hin]; [assumption | now apply Ht].
Qed.

Lemma keys_assign_endpoint (tree : EndpointIndex) (path : string)
      (methods : list string) (k : string) :
  In k (JsObject.keys (assign_endpoint tree path methods))
  <-> (k = path /\ path <> "__proto__") \/ In k (JsObject.keys tree).
Proof.
  unfold assign_endpoint.
  destruct (String.eqb_spec path "__proto__") as [->|Hne].
  - intuition.
  - rewrite keys_set. intuition.
Qed.

Lemma extract_loop_keys (pending : list string)
      (tree index : EndpointIndex) :
  extract_loop paths pending tree = Normal index ->
  (forall k, In k pending ->
     In k (JsObject.keys (JsObject.own_properties paths))) ->
  forall k, In k (JsObject.keys index)
            <-> In k (JsObject.keys tree)
                \/ (In k pending /\ k <> "__proto__").
Proof.
  revert tree. induction pending as [|path pending IH]; intros tree; simpl.
  - intros [= ->] _ k. intuition.
  - intros H Hown k.
    destruct (JsObject.hasOwnProperty paths path) as [b|] eqn:Eb;
      simpl in H; [|discriminate].
    rewrite (hasOwnProperty_own _ _ Eb) in H by (apply Hown; now left).
    destruct (JsObject.keys_of_value (JsObject.member paths path))
      as [methods|]; simpl in H; [|discriminate].
    rewrite (IH _ H) by (intros k' Hk'; apply Hown; now right).
    rewrite keys_assign_endpoint. intuition (subst; auto).
Qed.

End BuildFacts.

(** C2, amended.  For a document object without a [paths] field
    [extractEndpointsWithMethods] does not fail: it returns the empty
    index, as it does for a path collection that is present and empty. *)
Theorem extractEndpointsWithMethods_no_paths (props : list (string * JsValue))
        (Hpaths : JsObject.get props "paths" = None
                  \/ JsObject.get props "paths" = Some (JsObject [])) :
  extractEndpointsWithMethods (JsObject props) = Normal [].
Proof.
  unfold extractEndpointsWithMethods, get_paths.
  destruct Hpaths as [-> | ->]; reflexivity.
Qed.

(** The theorem at a document without the field and at one with an empty
    path collection. *)
Lemma extractEndpointsWithMethods_no_paths_witness :
  extractEndpointsWithMethods (JsObject [("swagger", JsString "2.0")])
    = Normal []
  /\ extractEndpointsWithMethods (JsObject [("paths", JsObject [])])
    = Normal [].
Proof.
  split.
  - apply (extractEndpointsWithMethods_no_paths
             [("swagger", JsString "2.0")]). left. reflexivity.
  - apply (extractEndpointsWithMethods_no_paths [("paths", JsObject [])]).
    right. reflexivity.
Defined.

(** C2 as stated fails: a document without a [paths] field gives the
    empty index and no error. *)
Lemma extractEndpointsWithMethods_missing_paths_succeeds :
  JsObject.get [("swagger", JsString "2.0")] "paths" = None
  /\ extractEndpointsWithMethods (JsObject [("swagger", JsString "2.0")])
     = Normal []
  /\ extractEndpointsWithMethods (JsObject [("swagger", JsString "2.0")])
     <> Throw TypeError.
Proof. repeat split. discriminate. Qed.

(** C3, amended.  The keys of the index are the keys the document
    declares, stored as they are: every key of the index is a declared
    key, and every declared key other than [__proto__] is a key of the
    index.  When no declared key ends in a slash, every key of the index
    is its own normal form. *)
Theorem extractEndpointsWithMethods_keys_verbatim
        (swaggerObject paths : JsValue) (index : EndpointIndex)
        (Hpaths : get_paths swaggerObject = Normal paths)
        (Hbuild : extractEndpointsWithMethods swaggerObject = Normal index) :
  let declared := JsObject.keys (JsObject.own_properties paths) in
  (forall k, In k (JsObject.keys index)
             <-> In k declared /\ k <> "__proto__")
  /\ ((forall k, In k declared -> JsString.endsWith k "/" = false) ->
      forall k, In k (JsObject.keys index) -> normalizePath k = k).
Proof.
  intros declared.
  unfold extractEndpointsWithMethods in Hbuild. rewrite Hpaths in Hbuild.
  simpl in Hbuild.
  assert (K : forall k, In k (JsObject.keys index)
                        <-> In k declared /\ k <> "__proto__").
  { intros k. rewrite (extract_loop_keys _ _ _ Hbuild) by auto.
    simpl. intuition. }
  split; [exact K|].
  intros Hslash k Hk. apply normalizePath_fixed, Hslash. now apply K.
Qed.

(** The theorem at a document that declares two paths without a trailing
    slash. *)
Lemma extractEndpointsWithMethods_keys_verbatim_witness :
  get_paths
    (JsObject [("paths", JsObject [("/a/{id}", JsObject [("get", JsNull)]);
                                   ("/a/b", JsObject [("post", JsNull)])])])
  = Normal (JsObject [("/a/{id}", JsObject [("get", JsNull)]);
                      ("/a/b", JsObject [("post", JsNull)])])
  /\ extractEndpointsWithMethods
       (JsObject [("paths", JsObject [("/a/{id}", JsObject [("get", JsNull)]);
                                      ("/a/b", JsObject [("post", JsNull)])])])
     = Normal [("/a/{id}", ["get"]); ("/a/b", ["post"])]
  /\ (In "/a/b" (JsObject.keys [("/a/{id}", ["get"]); ("/a/b", ["post"])])
      <-> In "/a/b" ["/a/{id}"; "/a/b"] /\ "/a/b" <> "__proto__").
Proof.
  split; [reflexivity|]. split; [reflexivity|].
  apply (@extractEndpointsWithMethods_keys_verbatim
           (JsObject [("paths",
                       JsObject [("/a/{id}", JsObject [("get", JsNull)]);
                                 ("/a/b", JsObject [("post", JsNull)])])])
           (JsObject [("/a/{id}", JsObject [("get", JsNull)]);
                      ("/a/b", JsObject [("post", JsNull)])])
           [("/a/{id}", ["get"]); ("/a/b", ["post"])] eq_refl eq_refl).
Defined.

(** C3 as stated fails: a declared path with a trailing slash is stored
    with it. *)
Lemma extractEndpointsWithMethods_key_not_normalized :
  extractEndpointsWithMethods
    (JsObject [("paths", JsObject [("/a/", JsObject [("get", JsNull)])])])
  = Normal [("/a/", ["get"])]
  /\ normalizePath "/a/" <> "/a/".
Proof. split; [reflexivity | discriminate]. Qed.

(** C8, amended.  The tokens stored under a key are the own keys of the
    value declared under it, unchanged.  For a non-empty candidate
    method, an entry whose tokens all hold an upper-case letter is passed
    over by [isPathOverlapping], and an index made of such entries gives
    no match; the lookup of [delete] under the tokens [get] and [post]
    gives none.  Upper-case letters are A to Z; of the case map the proof
    uses that its result holds none of them, that a non-empty method stays
    non-empty, and, for the example, that it is the map of A to Z on ASCII
    strings. *)
Theorem isPathOverlapping_upper_case_tokens
        (candidatePath candidateMethod : string)
        (Hmethod : candidateMethod <> EmptyString) :
  (forall swaggerObject index k ms,
      extractEndpointsWithMethods swaggerObject = Normal index ->
      In (k, ms) index ->
      exists paths,
        get_paths swaggerObject = Normal paths
        /\ JsObject.keys_of_value (JsObject.member paths k) = Normal ms)
  /\ (forall k ms rest,
        all_upper ms ->
        isPathOverlapping toLowerCase candidatePath (Some candidateMethod)
                          ((k, ms) :: rest)
        = isPathOverlapping toLowerCase candidatePath (Some candidateMethod)
                            rest)
  /\ (forall index : EndpointIndex,
        (forall k ms, In (k, ms) index -> all_upper ms) ->
        isPathOverlapping toLowerCase candidatePath (Some candidateMethod)
                          index = None)
  /\ isPathOverlapping toLowerCase "/a/b" (Some "delete")
                       [("/a/{id}", ["get"; "post"])]
     = None.
Proof.
  split; [|split; [|split]].
  - intros swaggerObject index k ms Hbuild Hin.
    unfold extractEndpointsWithMethods in Hbuild.
    destruct (get_paths swaggerObject) as [paths|]; [|discriminate].
    exists paths. split; [reflexivity|]. simpl in Hbuild.
    eapply extract_loop_methods; [exact Hbuild | | exact Hin].
    intros k' ms' [].
  - intros k ms rest Hup.
    unfold isPathOverlapping. rewrite !overlap_loop_find.
    unfold checkSingle_normalising. simpl.
    now rewrite upper_entry_rejected.
  - intros index Hup.
    unfold isPathOverlapping. rewrite overlap_loop_find.
    unfold checkSingle_normalising.
    replace (find _ index) with (@None (string * list string));
      [reflexivity|].
    symmetry. apply find_none_iff. intros [k ms] Hin.
    apply upper_entry_rejected; [assumption|]. simpl. now apply (Hup k).
  - unfold isPathOverlapping. simpl.
    rewrite (toLowerCase_ascii "delete" eq_refl). reflexivity.
Qed.

(** C8 as stated fails for the empty candidate method, which is a given
    method and yet skips the method test. *)
Lemma isPathOverlapping_upper_case_empty_method :
  all_upper ["GET"]
  /\ isPathOverlapping JsString.ascii_lower "/a" (Some EmptyString)
                       [("/a", ["GET"])] = Some "/a".
Proof.
  split; [|reflexivity]. intros t [<-|[]]. reflexivity.
Qed.

(* ================================================================== *)
(** * Further properties *)

(** ** Splitting *)

Section SplitFacts.

Local Open Scope bool_scope.

Lemma split_not_nil (sep : ascii) (s : string) : JsString.split sep s <> [].
Proof.
  destruct s as [|c r]; simpl; [discriminate|].
  destruct (Ascii.eqb c sep); [discriminate|].
  destruct (JsString.split sep r); discriminate.
Qed.

Lemma split_cons (sep c : ascii) (r : string) :
  JsString.split sep (String c r)
  = if Ascii.eqb c sep then EmptyString :: JsString.split sep r
    else String c (hd EmptyString (JsString.split sep r))
           :: tl (JsString.split sep r).
Proof.
  simpl. destruct (Ascii.eqb c sep); [reflexivity|].
  destruct (JsString.split sep r) eqn:E; [|reflexivity].
  now apply split_not_nil in E.
Qed.

Lemma concat_cons (sep h : string) (t : list string) :
  t <> [] -> String.concat sep (h :: t)
             = (h ++ sep ++ String.concat sep t)%string.
Proof. destruct t; [contradiction | reflexivity]. Qed.

(** Joining the tokens with the separator gives the string back. *)
Lemma concat_split (s : string) :
  String.concat "/" (JsString.split JsString.slash s) = s.
Proof.
  induction s as [|c r IH]; [reflexivity|].
  rewrite split_cons.
  pose proof (split_not_nil JsString.slash r) as Hne.
  destruct (Ascii.eqb_spec c JsString.slash) as [->|Hc].
  - rewrite concat_cons by assumption. rewrite IH. reflexivity.
  - destruct (JsString.split JsString.slash r) as [|h t]; [contradiction|].
    simpl hd. simpl tl. destruct t as [|h' t].
    + simpl in *. now rewrite IH.
    + rewrite concat_cons by discriminate.
      rewrite concat_cons in IH by discriminate.
      rewrite <- IH. reflexivity.
Qed.

Lemma split_injective (a b : string) :
  JsString.split JsString.slash a = JsString.split JsString.slash b -> a = b.
Proof.
  intros H. rewrite <- (concat_split a), <- (concat_split b). now rewrite H.
Qed.

Lemma split_tokens_clean (sep : ascii) (s t : string) :
  In t (JsString.split sep s) -> occurs sep t = false.
Proof.
  revert t. induction s as [|c r IH]; intros t.
  - simpl. intros [<-|[]]. reflexivity.
  - rewrite split_cons. pose proof (split_not_nil sep r) as Hne.
    destruct (Ascii.eqb c sep) eqn:E.
    + intros [<-|H]; [reflexivity | now apply IH].
    + destruct (JsString.split sep r) as [|h tl]; [contradiction|].
      simpl. intros [<-|H].
      * simpl. rewrite E. apply IH. now left.
      * apply IH. now right.
Qed.

Lemma split_snoc (q : string) :
  JsString.split JsString.slash (q ++ "/")%string
  = JsString.split JsString.slash q ++ [EmptyString].
Proof.
  induction q as [|c r IH]; [reflexivity|].
  change (String c r ++ "/")%string with (String c (r ++ "/")%string).
  rewrite !split_cons, IH.
  pose proof (split_not_nil JsString.slash r) as Hne.
  destruct (Ascii.eqb c JsString.slash); [reflexivity|].
  destruct (JsString.split JsString.slash r); [contradiction | reflexivity].
Qed.

End SplitFacts.

(** X1.  Splitting a path on the slash loses nothing: the tokens hold no
    slash, there is at least one token, and joining them with a slash
    gives the path back, so two paths with the same tokens are the same
    path. *)
Theorem split_join_round_trip (s : string) :
  String.concat "/" (JsString.split JsString.slash s) = s
  /\ JsString.split JsString.slash s <> []
  /\ (forall t, In t (JsString.split JsString.slash s) ->
        occurs JsString.slash t = false)
  /\ (forall s', JsString.split JsString.slash s
                 = JsString.split JsString.slash s' -> s = s').
Proof.
  split; [apply concat_split|]. split; [apply split_not_nil|].
  split; [intros t; apply split_tokens_clean|].
  intros s'. apply split_injective.
Qed.

(** ** The matcher as a relation on paths *)

Lemma pathIncludesSegments_refl (p : string) :
  pathIncludesSegments p p = true.
Proof.
  apply pathIncludesSegments_iff. split; [reflexivity|].
  intros i _. now left.
Qed.

Lemma shape_matches_segments (c k : string) :
  shape_matches c k = pathIncludesSegments c k.
Proof.
  unfold shape_matches. destruct (String.eqb_spec c k) as [->|_].
  - now rewrite pathIncludesSegments_refl.
  - reflexivity.
Qed.

(** X2.  Every path overlaps itself, so the test [givenPath ===
    normalizedPath] of [isPathOverlapping] adds nothing to the segment
    test that follows it. *)
Theorem pathIncludesSegments_reflexive (givenPath existingPath : string) :
  pathIncludesSegments givenPath givenPath = true
  /\ (String.eqb givenPath existingPath
      || pathIncludesSegments givenPath existingPath)%bool
     = pathIncludesSegments givenPath existingPath.
Proof.
  split; [apply pathIncludesSegments_refl|].
  apply (shape_matches_segments givenPath existingPath).
Qed.

(** X3.  The matcher is transitive: what overlaps a path that overlaps a
    third path overlaps the third path. *)
Theorem pathIncludesSegments_transitive (a b c : string)
        (Hab : pathIncludesSegments a b = true)
        (Hbc : pathIncludesSegments b c = true) :
  pathIncludesSegments a c = true.
Proof.
  apply pathIncludesSegments_iff in Hab as [Lab Pab].
  apply pathIncludesSegments_iff in Hbc as [Lbc Pbc].
  apply pathIncludesSegments_iff. split; [congruence|].
  intros i Hi. unfold position_ok in *.
  destruct (Pbc i) as [Ebc|Sc]; [lia | | now right].
  destruct (Pab i Hi) as [Eab|Sb].
  - left. congruence.
  - right. now rewrite <- Ebc.
Qed.

(** The theorem at a literal path, a path with one parameter and a path
    with two. *)
Lemma pathIncludesSegments_transitive_witness :
  pathIncludesSegments "/a/b" "/a/{x}" = true
  /\ pathIncludesSegments "/a/{x}" "/{y}/{x}" = true
  /\ pathIncludesSegments "/a/b" "/{y}/{x}" = true.
Proof.
  split; [reflexivity|]. split; [reflexivity|].
  apply (@pathIncludesSegments_transitive "/a/b" "/a/{x}" "/{y}/{x}");
    reflexivity.
Defined.

(** X4.  Against an existing path without parameter tokens the matcher
    is string equality. *)
Theorem pathIncludesSegments_literal (givenPath existingPath : string)
        (Hliteral : literal_path existingPath = true) :
  pathIncludesSegments givenPath existingPath = true
  <-> givenPath = existingPath.
Proof.
  split; [|intros ->; apply pathIncludesSegments_refl].
  intros H. apply pathIncludesSegments_iff in H as [Hlen Hpos].
  apply split_injective.
  apply (nth_ext _ _ EmptyString EmptyString Hlen).
  intros i Hi. destruct (Hpos i Hi) as [E|Hs]; [exact E|].
  unfold literal_path in Hliteral. rewrite forallb_forall in Hliteral.
  assert (Hin : In (nth i (JsString.split JsString.slash existingPath)
                        EmptyString)
                   (JsString.split JsString.slash existingPath))
    by (apply nth_In; lia).
  apply Hliteral in Hin. rewrite Hs in Hin. discriminate.
Qed.

(** The theorem at a literal existing path. *)
Lemma pathIncludesSegments_literal_witness :
  literal_path "/users/me" = true
  /\ (pathIncludesSegments "/users/{id}" "/users/me" = true
      <-> "/users/{id}" = "/users/me").
Proof.
  split; [reflexivity|].
  apply (@pathIncludesSegments_literal "/users/{id}" "/users/me").
  reflexivity.
Defined.

(** X5.  A trailing slash is one more, empty, token: a path and the same
    path followed by a slash never overlap, in either direction, unless
    the slash is removed first. *)
Theorem pathIncludesSegments_trailing_slash (q : string) :
  JsString.split JsString.slash (q ++ "/")%string
  = JsString.split JsString.slash q ++ [EmptyString]
  /\ pathIncludesSegments (q ++ "/")%string q = false
  /\ pathIncludesSegments q (q ++ "/")%string = false
  /\ pathIncludesSegments (normalizePath (q ++ "/")%string) q = true.
Proof.
  split; [apply split_snoc|].
  assert (L : List.length (JsString.split JsString.slash (q ++ "/")%string)
              = S (List.length (JsString.split JsString.slash q))).
  { rewrite split_snoc, length_app. simpl. lia. }
  split; [|split].
  - apply not_true_is_false. intros H.
    apply pathIncludesSegments_iff in H as [H _]. lia.
  - apply not_true_is_false. intros H.
    apply pathIncludesSegments_iff in H as [H _]. lia.
  - rewrite normalizePath_snoc. apply pathIncludesSegments_refl.
Qed.

(** ** The lookup as its callers see it *)

Section LookupUse.

Local Open Scope bool_scope.

Lemma lower_ascii_idempotent (c : ascii) :
  JsString.lower_ascii (JsString.lower_ascii c) = JsString.lower_ascii c.
Proof.
  unfold JsString.lower_ascii at 1.
  now rewrite lower_ascii_not_upper.
Qed.

Lemma ascii_lower_idempotent (s : string) :
  JsString.ascii_lower (JsString.ascii_lower s) = JsString.ascii_lower s.
Proof.
  induction s as [|c r IH]; [reflexivity|].
  simpl. now rewrite lower_ascii_idempotent, IH.
Qed.

Lemma ascii_lower_nonempty (s : string) :
  s <> EmptyString -> JsString.ascii_lower s <> EmptyString.
Proof. destruct s; [contradiction | discriminate]. Qed.

Lemma normalizeMethod_lowered (m : string) :
  normalizeMethod toLowerCase (Some (toLowerCase m))
  = normalizeMethod toLowerCase (Some m).
Proof.
  rewrite !normalizeMethod_some.
  destruct (String.eqb_spec m EmptyString) as [->|Hm].
  - rewrite (toLowerCase_ascii EmptyString eq_refl). reflexivity.
  - apply toLowerCase_nonempty, String.eqb_neq in Hm.
    now rewrite Hm, toLowerCase_idempotent.
Qed.

Lemma overlap_loop_app (givenPath : string) (method : option string)
      (index1 index2 : EndpointIndex) :
  overlap_loop givenPath method (index1 ++ index2)
  = match overlap_loop givenPath method index1 with
    | Some r => Some r
    | None => overlap_loop givenPath method index2
    end.
Proof.
  induction index1 as [|[k ms] index1 IH]; [reflexivity|].
  simpl. destruct (entry_matches _ _ _ _); [reflexivity | exact IH].
Qed.

(** The entry the loop has stopped at: the first one that passes its
    test. *)
Lemma overlap_loop_some (givenPath : string) (method : option string)
      (index : EndpointIndex) (r : string) :
  overlap_loop givenPath method index = Some r ->
  exists before k ms after,
    index = before ++ (k, ms) :: after
    /\ r = normalizePath k
    /\ entry_matches givenPath method (normalizePath k) ms = true
    /\ forall kb msb, In (kb, msb) before ->
         entry_matches givenPath method (normalizePath kb) msb = false.
Proof.
  induction index as [|[k ms] index IH]; simpl; [discriminate|].
  destruct (entry_matches givenPath method (normalizePath k) ms) eqn:E.
  - intros [= <-]. exists [], k, ms, index.
    repeat split; [exact E|]. intros kb msb [].
  - intros H.
    destruct (IH H) as (before & k' & ms' & after & -> & Hr & Ha & Hb).
    exists ((k, ms) :: before), k', ms', after.
    repeat split; [exact Hr | exact Ha |].
    intros kb msb [[= <- <-]|Hin]; [exact E | now apply Hb].
Qed.

Lemma overlap_loop_none (givenPath : string) (method : option string)
      (index : EndpointIndex) :
  overlap_loop givenPath method index = None
  <-> forall k ms, In (k, ms) index ->
        entry_matches givenPath method (normalizePath k) ms = false.
Proof.
  induction index as [|[k ms] index IH]; simpl.
  - split; [intros _ k ms [] | reflexivity].
  - destruct (entry_matches givenPath method (normalizePath k) ms) eqn:E.
    + split; [discriminate|]. intros H.
      rewrite (H k ms) in E by now left. discriminate.
    + rewrite IH. split.
      * intros H k' ms' [[= <- <-]|Hin]; [exact E | now apply H].
      * intros H k' ms' Hin. apply H. now right.
Qed.

Lemma entry_matches_shape (givenPath : string) (method : option string)
      (normalizedPath : string) (methods : list string) :
  entry_matches givenPath method normalizedPath methods = true ->
  shape_matches givenPath normalizedPath = true.
Proof. unfold entry_matches. now intros [H _]%andb_true_iff. Qed.

Lemma entry_matches_no_method (givenPath normalizedPath : string)
      (methods : list string) :
  entry_matches givenPath None normalizedPath methods
  = shape_matches givenPath normalizedPath.
Proof. unfold entry_matches. simpl. apply andb_true_r. Qed.

(** The test of a stored entry against its own key and a method among
    its tokens. *)
Lemma entry_matches_own (k m : string) (ms : list string) :
  includes ms (toLowerCase m) = true ->
  entry_matches (normalizePath k) (normalizeMethod toLowerCase (Some m))
                (normalizePath k) ms = true.
Proof.
  intros Hm. rewrite normalizeMethod_some.
  unfold entry_matches. rewrite String.eqb_refl.
  destruct (String.eqb m EmptyString); simpl; [reflexivity|].
  rewrite Hm. apply orb_true_r.
Qed.

(** Only the empty candidate passes the shape test against the empty
    key. *)
Lemma shape_matches_empty_key (c : string) :
  shape_matches c EmptyString = true -> c = EmptyString.
Proof.
  rewrite shape_matches_segments. intros H.
  apply pathIncludesSegments_literal in H; [exact H | reflexivity].
Qed.

Lemma startsWith_slash (k : string) :
  JsString.startsWith k "/" = true -> exists r, k = String JsString.slash r.
Proof.
  destruct k as [|c r]; [discriminate|].
  unfold JsString.startsWith.
  change (String.prefix "/" (String c r))
    with (if ascii_dec JsString.slash c
          then String.prefix EmptyString r else false).
  destruct (ascii_dec JsString.slash c) as [<-|]; [|discriminate].
  intros _. now exists r.
Qed.

(** A key that begins with a slash and passes the shape test against the
    empty candidate is the root path. *)
Lemma root_candidate_key (k : string) :
  JsString.startsWith k "/" = true ->
  shape_matches EmptyString (normalizePath k) = true ->
  normalizePath k = EmptyString.
Proof.
  intros Hk. apply startsWith_slash in Hk as [r ->].
  simpl normalizePath. destruct (String.eqb r EmptyString); simpl.
  - reflexivity.
  - rewrite shape_matches_segments. intros H.
    apply pathIncludesSegments_iff in H as [H _].
    rewrite split_cons in H. simpl in H.
    pose proof (split_not_nil JsString.slash (normalizePath r)) as Hne.
    destruct (JsString.split JsString.slash (normalizePath r));
      [contradiction | discriminate].
Qed.

End LookupUse.

(** X6.  Trailing slashes do not matter to the lookup: a slash added to
    the candidate path, or to a stored key, changes nothing in the
    result. *)
Theorem isPathOverlapping_trailing_slash
        (q k p : string) (m : option string) (ms : list string)
        (index rest : EndpointIndex)
        (Hq : JsString.endsWith q "/" = false)
        (Hk : JsString.endsWith k "/" = false) :
  isPathOverlapping toLowerCase (q ++ "/")%string m index
  = isPathOverlapping toLowerCase q m index
  /\ isPathOverlapping toLowerCase p m (((k ++ "/")%string, ms) :: rest)
     = isPathOverlapping toLowerCase p m ((k, ms) :: rest).
Proof.
  apply normalizePath_fixed in Hq, Hk.
  unfold isPathOverlapping. simpl.
  now rewrite !normalizePath_snoc, Hq, Hk.
Qed.

(** X7.  The letter case of the candidate method does not matter: the
    lookup gives the same result for a method and for its lower-cased
    form, whatever the case map of the engine does outside ASCII, as long
    as it keeps a non-empty string non-empty, is the map of A to Z on
    ASCII strings, and gives the same when applied twice. *)
Theorem isPathOverlapping_method_case
        (givenPath givenMethod : string) (existingPaths : EndpointIndex) :
  isPathOverlapping toLowerCase givenPath (Some (toLowerCase givenMethod))
                    existingPaths
  = isPathOverlapping toLowerCase givenPath (Some givenMethod) existingPaths.
Proof.
  unfold isPathOverlapping. now rewrite normalizeMethod_lowered.
Qed.

(** X8.  A method only narrows the lookup: when the lookup without a
    method finds nothing, the lookup with any method finds nothing. *)
Theorem isPathOverlapping_method_narrows
        (givenPath : string) (existingPaths : EndpointIndex)
        (Hnone : isPathOverlapping toLowerCase givenPath None existingPaths
                 = None)
        (givenMethod : option string) :
  isPathOverlapping toLowerCase givenPath givenMethod existingPaths = None.
Proof.
  unfold isPathOverlapping in *. apply overlap_loop_none. intros k ms Hin.
  apply (proj1 (overlap_loop_none _ _ _) Hnone) in Hin.
  rewrite entry_matches_no_method in Hin.
  apply not_true_is_false. intros H.
  apply entry_matches_shape in H. congruence.
Qed.

(** X9.  An endpoint that is in the index is always found: for a stored
    key whose normal form is not empty and a method whose lower-cased
    form is among the tokens stored under it, the lookup returns a
    non-empty path, which every caller reads as an overlap.  The path is
    the normalised key of the first entry that passes the test of the
    loop, and that entry is the stored one or stands before it. *)
Theorem isPathOverlapping_declared
        (k m : string) (ms : list string) (index : EndpointIndex)
        (Hin : In (k, ms) index)
        (Hmethod : includes ms (toLowerCase m) = true)
        (Hkey : normalizePath k <> EmptyString) :
  exists before k' ms' after,
    index = before ++ (k', ms') :: after
    /\ ~ In (k, ms) before
    /\ isPathOverlapping toLowerCase k (Some m) index
       = Some (normalizePath k')
    /\ truthy (isPathOverlapping toLowerCase k (Some m) index) = true
    /\ pathIncludesSegments (normalizePath k) (normalizePath k') = true
    /\ entry_matches (normalizePath k) (normalizeMethod toLowerCase (Some m))
                     (normalizePath k') ms' = true
    /\ forall kb msb, In (kb, msb) before ->
         entry_matches (normalizePath k)
                       (normalizeMethod toLowerCase (Some m))
                       (normalizePath kb) msb = false.
Proof.
  pose proof (entry_matches_own k m ms Hmethod) as Hown.
  unfold isPathOverlapping.
  destruct (overlap_loop (normalizePath k)
                         (normalizeMethod toLowerCase (Some m)) index)
    as [r|] eqn:E.
  - apply overlap_loop_some in E
      as (before & k' & ms' & after & Hidx & -> & Hacc & Hbefore).
    exists before, k', ms', after.
    pose proof (entry_matches_shape _ _ _ _ Hacc) as Hshape.
    split; [exact Hidx|]. split.
    { intros Hb. apply Hbefore in Hb. congruence. }
    split; [reflexivity|]. split.
    { unfold truthy. destruct (String.eqb_spec (normalizePath k') EmptyString)
        as [Hk'|Hk']; [|reflexivity].
      rewrite Hk' in Hshape. apply shape_matches_empty_key in Hshape.
      contradiction. }
    split; [now rewrite <- shape_matches_segments|].
    split; [exact Hacc | exact Hbefore].
  - apply (proj1 (overlap_loop_none _ _ _) E) in Hin. congruence.
Qed.

(** X10.  The lookup over two indexes put one after the other is the
    lookup over the first and, when that finds nothing, the lookup over
    the second. *)
Theorem isPathOverlapping_app
        (givenPath : string) (givenMethod : option string)
        (index1 index2 : EndpointIndex) :
  isPathOverlapping toLowerCase givenPath givenMethod (index1 ++ index2)
  = match isPathOverlapping toLowerCase givenPath givenMethod index1 with
    | Some r => Some r
    | None => isPathOverlapping toLowerCase givenPath givenMethod index2
    end.
Proof. apply overlap_loop_app. Qed.

(** X11.  The root path is never reported: when every stored key begins
    with a slash, the lookup of [/] (or of the empty path) returns nothing
    or the empty string, which counts as no overlap, and
    [displaySpecificOverlap] prints that the path does not overlap, even
    when [/] is a stored key with the given method. *)
Theorem displaySpecificOverlap_root
        (path : string) (endpoints : EndpointIndex)
        (Hroot : normalizePath path = EmptyString)
        (Hkeys : forall k ms, In (k, ms) endpoints ->
                              JsString.startsWith k "/" = true) :
  (forall givenMethod,
      truthy (isPathOverlapping toLowerCase path givenMethod endpoints)
      = false)
  /\ (forall method,
        displaySpecificOverlap toLowerCase path method endpoints
        = [{| style := Green;
              text := ("Path '" ++ path ++ "' with method '" ++ method
                       ++ "' does not overlap.")%string |}]).
Proof.
  assert (T : forall givenMethod,
             truthy (isPathOverlapping toLowerCase path givenMethod endpoints)
             = false).
  { intros givenMethod. unfold isPathOverlapping.
    destruct (overlap_loop _ _ endpoints) as [r|] eqn:E; [|reflexivity].
    apply overlap_loop_some in E
      as (before & k & ms & after & Hidx & -> & Hacc & _).
    apply entry_matches_shape in Hacc. rewrite Hroot in Hacc.
    assert (Hin : In (k, ms) endpoints)
      by (rewrite Hidx; apply in_or_app; right; now left).
    rewrite (root_candidate_key k (Hkeys k ms Hin) Hacc). reflexivity. }
  split; [exact T|].
  intros method. unfold displaySpecificOverlap. now rewrite T.
Qed.

(** ** The index as a whole *)

Section IndexFacts.

Local Open Scope bool_scope.

Lemma get_In {V : Type} (o : list (string * V)) (k : string) (v : V) :
  JsObject.get o k = Some v -> In (k, v) o.
Proof.
  induction o as [|[k' v'] o IH]; simpl; [discriminate|].
  destruct (String.eqb_spec k' k) as [->|_].
  - intros [= ->]. now left.
  - intros H. right. now apply IH.
Qed.

Lemma get_some_key {V : Type} (o : list (string * V)) (k : string) (v : V) :
  JsObject.get o k = Some v -> In k (JsObject.keys o).
Proof.
  intros H. apply get_In in H. now apply (in_map fst) in H.
Qed.

Lemma set_fresh {V : Type} (o : list (string * V)) (k : string) (v : V) :
  ~ In k (JsObject.keys o) -> JsObject.set o k v = o ++ [(k, v)].
Proof.
  induction o as [|[k' v'] o IH]; simpl; [reflexivity|].
  intros H. destruct (String.eqb_spec k' k) as [->|_].
  - exfalso. apply H. now left.
  - f_equal. apply IH. intros Hin. apply H. now right.
Qed.

Lemma set_present {V : Type} (o : list (string * V)) (k : string) (v : V) :
  In k (JsObject.keys o) -> JsObject.keys (JsObject.set o k v) = JsObject.keys o.
Proof.
  induction o as [|[k' v'] o IH]; simpl; [contradiction|].
  intros H. destruct (String.eqb_spec k' k) as [->|Hne]; [reflexivity|].
  simpl. f_equal. apply IH. destruct H as [H|H]; [contradiction | exact H].
Qed.

Lemma set_NoDup {V : Type} (o : list (string * V)) (k : string) (v : V) :
  NoDup (JsObject.keys o) -> NoDup (JsObject.keys (JsObject.set o k v)).
Proof.
  intros H. destruct (in_dec string_dec k (JsObject.keys o)) as [Hin|Hout].
  - now rewrite set_present.
  - rewrite set_fresh by assumption. unfold JsObject.keys.
    rewrite map_app. simpl. apply NoDup_app; repeat split.
    + exact H.
    + constructor; [intros [] | constructor].
    + intros x Hx [<-|[]]. contradiction.
Qed.

Lemma keys_of_value_normal (v : JsValue) (ks : list string) :
  JsObject.keys_of_value v = Normal ks ->
  ks = JsObject.keys (JsObject.own_properties v).
Proof. destruct v; simpl; congruence. Qed.

Lemma keys_of_value_throw (v : JsValue) :
  JsObject.keys_of_value v = Throw TypeError <-> nullish v = true.
Proof. destruct v; simpl; split; congruence. Qed.

Variable paths : JsValue.

Lemma extract_loop_NoDup (pending : list string) (tree index : EndpointIndex) :
  extract_loop paths pending tree = Normal index ->
  NoDup (JsObject.keys tree) -> NoDup (JsObject.keys index).
Proof.
  revert tree. induction pending as [|path pending IH]; intros tree; simpl.
  - now intros [= ->].
  - destruct (JsObject.hasOwnProperty paths path) as [[|]|]; simpl;
      [|apply IH|discriminate].
    destruct (JsObject.keys_of_value (JsObject.member paths path))
      as [methods|]; simpl; [|discriminate].
    intros H Hnd. apply (IH _ H). unfold assign_endpoint.
    destruct (String.eqb path "__proto__"); [exact Hnd|].
    now apply set_NoDup.
Qed.

Lemma extract_loop_fresh (pending : list string) (tree index : EndpointIndex) :
  NoDup pending ->
  (forall k, In k pending -> ~ In k (JsObject.keys tree)) ->
  (forall k, In k pending ->
     In k (JsObject.keys (JsObject.own_properties paths))) ->
  extract_loop paths pending tree = Normal index ->
  index = tree ++ map (declared_entry paths)
                      (filter (fun k => negb (String.eqb k "__proto__"))
                              pending).
Proof.
  revert tree. induction pending as [|path pending IH];
    intros tree Hnd Hfresh Hown; simpl.
  - intros [= ->]. now rewrite app_nil_r.
  - destruct (JsObject.hasOwnProperty paths path) as [b|] eqn:Eb;
      simpl; [|discriminate].
    rewrite (hasOwnProperty_own _ _ Eb) by (apply Hown; now left).
    destruct (JsObject.keys_of_value (JsObject.member paths path))
      as [methods|] eqn:Em; simpl; [|discriminate].
    apply keys_of_value_normal in Em. subst methods.
    inversion Hnd as [|? ? Hnotin Hnd']; subst.
    intros H. unfold assign_endpoint in H.
    destruct (String.eqb path "__proto__"); simpl.
    + apply IH;
        [exact Hnd' | intros k Hk; apply Hfresh; now right
         | intros k Hk; apply Hown; now right | exact H].
    + rewrite set_fresh in H by (apply Hfresh; now left).
      apply IH in H;
        [| exact Hnd' | | intros k Hk; apply Hown; now right].
      * rewrite H, <- app_assoc. reflexivity.
      * intros k Hk Hin. unfold JsObject.keys in Hin.
        rewrite map_app in Hin. apply in_app_or in Hin as [Hin|[<-|[]]].
        -- apply (Hfresh k); [now right | exact Hin].
        -- contradiction.
Qed.

Lemma hasOwnProperty_unshadowed (k : string) :
  shadows_hasOwnProperty paths = false ->
  In k (JsObject.keys (JsObject.own_properties paths)) ->
  JsObject.hasOwnProperty paths k = Normal true.
Proof.
  intros Hs Hk.
  assert (E : existsb (String.eqb k)
                (JsObject.keys (JsObject.own_properties paths)) = true).
  { apply existsb_exists. exists k. split; [assumption|].
    apply String.eqb_refl. }
  destruct paths; simpl in *; try contradiction; try now rewrite E.
  destruct (JsObject.get props "hasOwnProperty"); [discriminate|].
  now rewrite E.
Qed.

Lemma hasOwnProperty_shadowed (k : string) :
  shadows_hasOwnProperty paths = true ->
  JsObject.hasOwnProperty paths k = Throw TypeError.
Proof.
  destruct paths; simpl; try discriminate.
  now destruct (JsObject.get props "hasOwnProperty").
Qed.

Lemma shadowed_has_keys :
  shadows_hasOwnProperty paths = true ->
  JsObject.keys (JsObject.own_properties paths) <> [].
Proof.
  destruct paths; simpl; try discriminate.
  destruct (JsObject.get props "hasOwnProperty") eqn:E; [|discriminate].
  intros _ Hnil. apply get_some_key in E. rewrite Hnil in E. contradiction.
Qed.

Lemma extract_loop_throws (pending : list string) (tree : EndpointIndex) :
  shadows_hasOwnProperty paths = false ->
  (forall k, In k pending ->
     In k (JsObject.keys (JsObject.own_properties paths))) ->
  extract_loop paths pending tree = Throw TypeError
  <-> existsb (fun k => nullish (JsObject.member paths k)) pending = true.
Proof.
  intros Hs. revert tree.
  induction pending as [|path pending IH]; intros tree Hown; simpl.
  - split; discriminate.
  - rewrite hasOwnProperty_unshadowed by (auto; apply Hown; now left).
    simpl.
    destruct (JsObject.keys_of_value (JsObject.member paths path))
      as [methods|[]] eqn:Em; simpl.
    + assert (N : nullish (JsObject.member paths path) = false).
      { apply not_true_is_false. intros N.
        apply keys_of_value_throw in N. congruence. }
      rewrite N. simpl. apply IH. intros k Hk. apply Hown. now right.
    + apply keys_of_value_throw in Em. rewrite Em. simpl. now split.
Qed.

End IndexFacts.

(** X12.  The index never holds a key twice, whatever the document is. *)
Theorem extractEndpointsWithMethods_NoDup
        (swaggerObject : JsValue) (index : EndpointIndex)
        (Hbuild : extractEndpointsWithMethods swaggerObject = Normal index) :
  NoDup (JsObject.keys index).
Proof.
  unfold extractEndpointsWithMethods in Hbuild.
  destruct (get_paths swaggerObject) as [paths|]; [|discriminate].
  simpl in Hbuild. eapply extract_loop_NoDup; [exact Hbuild | constructor].
Qed.

(** The theorem at a document of two paths. *)
Lemma extractEndpointsWithMethods_NoDup_witness :
  extractEndpointsWithMethods
    (JsObject [("paths", JsObject [("/a", JsObject [("get", JsNull)]);
                                   ("/b", JsObject [("put", JsNull)])])])
  = Normal [("/a", ["get"]); ("/b", ["put"])]
  /\ NoDup (JsObject.keys [("/a", ["get"]); ("/b", ["put"])]).
Proof.
  split; [reflexivity|].
  apply (@extractEndpointsWithMethods_NoDup
           (JsObject [("paths", JsObject [("/a", JsObject [("get", JsNull)]);
                                          ("/b", JsObject [("put", JsNull)])])])
           [("/a", ["get"]); ("/b", ["put"])] eq_refl).
Defined.

(** X13.  The index keeps the order of the document: when the build
    succeeds on a path collection whose keys are distinct, the index is,
    entry by entry and in the order of the declared keys, each key other
    than [__proto__] with the own keys of the value declared under it. *)
Theorem extractEndpointsWithMethods_order
        (swaggerObject paths : JsValue) (index : EndpointIndex)
        (Hpaths : get_paths swaggerObject = Normal paths)
        (Hdistinct : NoDup (JsObject.keys (JsObject.own_properties paths)))
        (Hbuild : extractEndpointsWithMethods swaggerObject = Normal index) :
  index = map (declared_entry paths) (stored_keys paths)
  /\ JsObject.keys index = stored_keys paths.
Proof.
  unfold extractEndpointsWithMethods in Hbuild. rewrite Hpaths in Hbuild.
  simpl in Hbuild.
  apply extract_loop_fresh in Hbuild; auto.
  simpl in Hbuild. subst index. split; [reflexivity|].
  unfold JsObject.keys at 1. rewrite map_map. simpl. apply map_id.
Qed.

(** The theorem at a document of three paths. *)
Lemma extractEndpointsWithMethods_order_witness :
  NoDup ["/b"; "/a/{id}"; "/a"]
  /\ JsObject.keys [("/b", ["get"]); ("/a/{id}", ["put"; "get"]); ("/a", [])]
     = stored_keys
         (JsObject [("/b", JsObject [("get", JsNull)]);
                    ("/a/{id}", JsObject [("put", JsNull); ("get", JsNull)]);
                    ("/a", JsObject [])]).
Proof.
  assert (Hnd : NoDup ["/b"; "/a/{id}"; "/a"]).
  { repeat constructor; simpl; intuition discriminate. }
  split; [exact Hnd|].
  apply (@extractEndpointsWithMethods_order
           (JsObject
              [("paths",
                JsObject [("/b", JsObject [("get", JsNull)]);
                          ("/a/{id}",
                           JsObject [("put", JsNull); ("get", JsNull)]);
                          ("/a", JsObject [])])])
           (JsObject [("/b", JsObject [("get", JsNull)]);
                      ("/a/{id}", JsObject [("put", JsNull); ("get", JsNull)]);
                      ("/a", JsObject [])])
           [("/b", ["get"]); ("/a/{id}", ["put"; "get"]); ("/a", [])]
           eq_refl Hnd eq_refl).
Defined.

(** X14.  When the build fails.  [extractEndpointsWithMethods] throws
    exactly when the document is [null] or [undefined], or its path
    collection is an object with an own field named [hasOwnProperty], or
    some declared path holds [null] or [undefined]; in every other case it
    returns an index. *)
Theorem extractEndpointsWithMethods_throws (swaggerObject : JsValue) :
  (extractEndpointsWithMethods swaggerObject = Throw TypeError
   <-> nullish swaggerObject = true
       \/ exists paths,
            get_paths swaggerObject = Normal paths
            /\ (shadows_hasOwnProperty paths = true
                \/ declares_nullish paths = true))
  /\ (extractEndpointsWithMethods swaggerObject <> Throw TypeError ->
      exists index, extractEndpointsWithMethods swaggerObject = Normal index).
Proof.
  split.
  - unfold extractEndpointsWithMethods.
    destruct (get_paths swaggerObject) as [paths|[]] eqn:Ep; simpl.
    + assert (Hn : nullish swaggerObject = false)
        by (destruct swaggerObject; simpl in *; congruence).
      rewrite Hn.
      destruct (shadows_hasOwnProperty paths) eqn:Es.
      * split; [intros _; right; exists paths; auto|]. intros _.
        pose proof (shadowed_has_keys paths Es) as Hne.
        destruct (JsObject.keys (JsObject.own_properties paths)) as [|k ks];
          [contradiction|].
        simpl. now rewrite hasOwnProperty_shadowed.
      * rewrite extract_loop_throws by auto. unfold declares_nullish.
        split.
        -- intros H. right. exists paths. auto.
        -- intros [H|(paths' & [= <-] & [H|H])]; congruence.
    + split; [intros _; left | reflexivity].
      destruct swaggerObject; simpl in *; try reflexivity;
        try discriminate.
      destruct (JsObject.get props "paths"); discriminate.
  - destruct (extractEndpointsWithMethods swaggerObject) as [index|[]].
    + intros _. now exists index.
    + intros H. now contradiction H.
Qed.

(** X15.  What is declared can be looked up: after a successful build,
    reading the index at a declared path other than [__proto__] gives the
    own keys of the value declared under that path. *)
Theorem extractEndpointsWithMethods_lookup
        (swaggerObject paths : JsValue) (index : EndpointIndex) (k : string)
        (Hpaths : get_paths swaggerObject = Normal paths)
        (Hbuild : extractEndpointsWithMethods swaggerObject = Normal index)
        (Hdeclared : In k (JsObject.keys (JsObject.own_properties paths)))
        (Hproto : k <> "__proto__") :
  JsObject.get index k
  = Some (JsObject.keys (JsObject.own_properties (JsObject.member paths k)))
  /\ methods_of index k
     = JsObject.keys (JsObject.own_properties (JsObject.member paths k)).
Proof.
  unfold extractEndpointsWithMethods in Hbuild. rewrite Hpaths in Hbuild.
  simpl in Hbuild.
  assert (Hk : In k (JsObject.keys index)).
  { apply (extract_loop_keys _ _ _ Hbuild); auto. }
  rewrite (methods_of_own_key _ _ Hk).
  assert (E : JsObject.keys_of_value (JsObject.member paths k)
              = Normal (methods_of index k)).
  { eapply extract_loop_methods; [exact Hbuild | intros ? ? [] |].
    apply get_In. now apply methods_of_own_key. }
  apply keys_of_value_normal in E. now rewrite E.
Qed.

(** The theorem at the second path of a document. *)
Lemma extractEndpointsWithMethods_lookup_witness :
  In "/pets/{id}" ["/pets"; "/pets/{id}"]
  /\ "/pets/{id}" <> "__proto__"
  /\ JsObject.get [("/pets", ["get"]); ("/pets/{id}", ["get"; "DELETE"])]
                  "/pets/{id}"
     = Some ["get"; "DELETE"].
Proof.
  assert (Hin : In "/pets/{id}" ["/pets"; "/pets/{id}"])
    by (right; left; reflexivity).
  assert (Hne : "/pets/{id}" <> "__proto__") by discriminate.
  split; [exact Hin|]. split; [exact Hne|].
  apply (@extractEndpointsWithMethods_lookup
           (JsObject
              [("paths",
                JsObject [("/pets", JsObject [("get", JsNull)]);
                          ("/pets/{id}",
                           JsObject [("get", JsObject []);
                                     ("DELETE", JsObject [])])])])
           (JsObject [("/pets", JsObject [("get", JsNull)]);
                      ("/pets/{id}",
                       JsObject [("get", JsObject []);
                                 ("DELETE", JsObject [])])])
           [("/pets", ["get"]); ("/pets/{id}", ["get"; "DELETE"])]
           "/pets/{id}" eq_refl eq_refl Hin Hne).
Defined.

(** ** The scan as its callers see it *)

Section ScanUse.

Local Open Scope bool_scope.

Lemma in_findOverlappingEndpoints (index : EndpointIndex) (r : OverlapRecord) :
  In r (findOverlappingEndpoints toLowerCase index)
  <-> exists i j,
        i < j < List.length (JsObject.keys index)
        /\ pair_reported (nth i (JsObject.keys index) EmptyString)
                         (nth j (JsObject.keys index) EmptyString) = true
        /\ r = record_at (JsObject.keys index) (i, j).
Proof.
  rewrite findOverlappingEndpoints_positions, in_map_iff. split.
  - intros ([i j] & <- & H). apply in_reported_positions in H as [Hlt Hp].
    now exists i, j.
  - intros (i & j & Hlt & Hp & ->). exists (i, j).
    split; [reflexivity|]. now apply in_reported_positions.
Qed.

Lemma reported_positions_nil (paths : list string) :
  (forall i j, i < j < List.length paths ->
     pair_reported (nth i paths EmptyString) (nth j paths EmptyString)
     = false) ->
  reported_positions paths = [].
Proof.
  intros H. unfold reported_positions.
  destruct (filter _ _) as [|[i j] l] eqn:F; [reflexivity|].
  assert (Hin : In (i, j) (reported_positions paths))
    by (unfold reported_positions; rewrite F; now left).
  apply in_reported_positions in Hin as [Hlt Hp].
  rewrite (H i j Hlt) in Hp. discriminate.
Qed.

End ScanUse.

(** X16.  Two keys with the same non-empty normal form are always
    reported, the earlier one first: keys that differ by a trailing slash
    only are an overlap. *)
Theorem findOverlappingEndpoints_same_normal_form
        (index : EndpointIndex) (i j : nat)
        (Hij : i < j < List.length (JsObject.keys index))
        (Hsame : normalizePath (nth i (JsObject.keys index) EmptyString)
                 = normalizePath (nth j (JsObject.keys index) EmptyString))
        (Hnonempty : normalizePath (nth j (JsObject.keys index) EmptyString)
                     <> EmptyString) :
  In {| path1 := nth i (JsObject.keys index) EmptyString;
        path2 := nth j (JsObject.keys index) EmptyString |}
     (findOverlappingEndpoints toLowerCase index).
Proof.
  apply in_findOverlappingEndpoints. exists i, j.
  split; [exact Hij|]. split; [|reflexivity].
  unfold pair_reported. rewrite Hsame, shape_matches_segments.
  rewrite pathIncludesSegments_refl. simpl.
  apply String.eqb_neq in Hnonempty. now rewrite Hnonempty.
Qed.

(** X17.  Literal routes do not overlap: when no key has a parameter
    token and the normal forms of the keys are distinct, the scan reports
    nothing and [displayInternalOverlaps] prints the one line that says
    so. *)
Theorem findOverlappingEndpoints_literal
        (index : EndpointIndex)
        (Hliteral : forall k, In k (JsObject.keys index) ->
                              literal_path (normalizePath k) = true)
        (Hdistinct : NoDup (map normalizePath (JsObject.keys index))) :
  findOverlappingEndpoints toLowerCase index = []
  /\ displayInternalOverlaps toLowerCase index
     = [{| style := Green;
           text := "No internal overlapping endpoints found." |}].
Proof.
  assert (E : findOverlappingEndpoints toLowerCase index = []).
  { rewrite findOverlappingEndpoints_positions.
    rewrite reported_positions_nil; [reflexivity|].
    intros i j Hij. apply not_true_is_false. intros Hp.
    unfold pair_reported in Hp. apply andb_true_iff in Hp as [Hs _].
    rewrite shape_matches_segments in Hs.
    apply pathIncludesSegments_literal in Hs;
      [|apply Hliteral, nth_In; lia].
    assert (Hi : i = j); [|lia].
    apply (proj1 (NoDup_nth (map normalizePath (JsObject.keys index))
                            EmptyString) Hdistinct);
      rewrite ?length_map; try lia.
    rewrite <- !(map_nth normalizePath) in Hs. exact Hs. }
  split; [exact E|].
  unfold displayInternalOverlaps. now rewrite E.
Qed.

(** X18.  Declaring more paths never removes a report: every record the
    scan gives for an index is also given for that index followed by
    further entries. *)
Theorem findOverlappingEndpoints_app
        (index more : EndpointIndex) (r : OverlapRecord)
        (Hr : In r (findOverlappingEndpoints toLowerCase index)) :
  In r (findOverlappingEndpoints toLowerCase (index ++ more)).
Proof.
  apply in_findOverlappingEndpoints in Hr as (i & j & Hij & Hp & ->).
  apply in_findOverlappingEndpoints. exists i, j.
  unfold record_at, JsObject.keys in *. rewrite map_app. simpl.
  rewrite !app_nth1 by lia. rewrite length_app.
  split; [lia|]. split; [exact Hp | reflexivity].
Qed.

End Properties.

(* ================================================================== *)
(** * The properties at the ASCII case map *)

(** The map of the letters A to Z has the four laws. *)
Lemma ascii_lower_agrees (s : string) :
  JsString.is_ascii s = true -> JsString.ascii_lower s = JsString.ascii_lower s.
Proof. reflexivity. Qed.

(** The first-match theorem at an index of three entries and an
    upper-case query with a trailing slash. *)
Lemma isPathOverlapping_first_match_witness :
  isPathOverlapping JsString.ascii_lower "/a/b/" (Some "GET")
    [("/c", ["get"]); ("/a/{id}", ["get"; "post"]); ("/a/b", ["get"])]
  = checkSingle_normalising JsString.ascii_lower "/a/b/" (Some "GET")
      [("/c", ["get"]); ("/a/{id}", ["get"; "post"]); ("/a/b", ["get"])]
  /\ checkSingle_normalising JsString.ascii_lower "/a/b/" (Some "GET")
       [("/c", ["get"]); ("/a/{id}", ["get"; "post"]); ("/a/b", ["get"])]
     = Some "/a/{id}".
Proof.
  split; [|reflexivity].
  exact (proj1 (@isPathOverlapping_first_match JsString.ascii_lower
                  ascii_lower_nonempty "/a/b/" (Some "GET")
                  [("/c", ["get"]); ("/a/{id}", ["get"; "post"]);
                   ("/a/b", ["get"])])).
Defined.

(** The theorem at two indexes over the same three keys. *)
Lemma findOverlappingEndpoints_method_agnostic_witness :
  JsObject.keys [("/a/b", ["get"]); ("/a/{id}", ["post"]); ("/c", [])]
  = JsObject.keys [("/a/b", ["PUT"; "delete"]); ("/a/{id}", []);
                   ("/c", ["get"])]
  /\ findOverlappingEndpoints JsString.ascii_lower
       [("/a/b", ["get"]); ("/a/{id}", ["post"]); ("/c", [])]
     = findOverlappingEndpoints JsString.ascii_lower
         [("/a/b", ["PUT"; "delete"]); ("/a/{id}", []); ("/c", ["get"])].
Proof.
  split; [reflexivity|].
  apply (@findOverlappingEndpoints_method_agnostic JsString.ascii_lower
           [("/a/b", ["get"]); ("/a/{id}", ["post"]); ("/c", [])]
           [("/a/b", ["PUT"; "delete"]); ("/a/{id}", []); ("/c", ["get"])]
           eq_refl).
Defined.

(** The theorem at the method [get] and an entry of upper-case tokens. *)
Lemma isPathOverlapping_upper_case_tokens_witness :
  "get" <> EmptyString
  /\ isPathOverlapping JsString.ascii_lower "/a/b" (Some "get")
       [("/a/{id}", ["GET"; "Post"])]
     = None.
Proof.
  assert (Hm : "get" <> EmptyString) by discriminate.
  split; [exact Hm|].
  destruct (@isPathOverlapping_upper_case_tokens JsString.ascii_lower
              ascii_lower_agrees ascii_lower_nonempty ascii_lower_no_upper
              "/a/b" "get" Hm)
    as (_ & _ & Hindex & _).
  apply Hindex.
  intros k ms [[= <- <-]|[]] t [<-|[<-|[]]]; reflexivity.
Defined.

(** The theorem at the candidate [/pets] and the key [/pets/{id}]. *)
Lemma isPathOverlapping_trailing_slash_witness :
  JsString.endsWith "/pets" "/" = false
  /\ JsString.endsWith "/pets/{id}" "/" = false
  /\ isPathOverlapping JsString.ascii_lower "/pets/" (Some "get")
       [("/pets", ["get"])]
     = isPathOverlapping JsString.ascii_lower "/pets" (Some "get")
         [("/pets", ["get"])]
  /\ isPathOverlapping JsString.ascii_lower "/pets/7" None
       [("/pets/{id}/", ["get"])]
     = isPathOverlapping JsString.ascii_lower "/pets/7" None
         [("/pets/{id}", ["get"])].
Proof.
  split; [reflexivity|]. split; [reflexivity|].
  apply (@isPathOverlapping_trailing_slash JsString.ascii_lower
           "/pets" "/pets/{id}" "/pets/7"
           (Some "get") ["get"] [("/pets", ["get"])] []);
    reflexivity.
Defined.

(** The theorem at a mixed-case method. *)
Lemma isPathOverlapping_method_case_witness :
  isPathOverlapping JsString.ascii_lower "/a/b"
    (Some (JsString.ascii_lower "PoSt")) [("/a/{id}", ["get"; "post"])]
  = isPathOverlapping JsString.ascii_lower "/a/b" (Some "PoSt")
      [("/a/{id}", ["get"; "post"])]
  /\ isPathOverlapping JsString.ascii_lower "/a/b" (Some "PoSt")
       [("/a/{id}", ["get"; "post"])]
     = Some "/a/{id}".
Proof.
  split; [|reflexivity].
  apply (@isPathOverlapping_method_case JsString.ascii_lower
           ascii_lower_agrees ascii_lower_nonempty ascii_lower_idempotent
           "/a/b" "PoSt" [("/a/{id}", ["get"; "post"])]).
Defined.

(** The theorem at a candidate with one token more than the stored key. *)
Lemma isPathOverlapping_method_narrows_witness :
  isPathOverlapping JsString.ascii_lower "/a/b/c" None
    [("/a/{id}", ["get"])] = None
  /\ isPathOverlapping JsString.ascii_lower "/a/b/c" (Some "get")
       [("/a/{id}", ["get"])] = None.
Proof.
  split; [reflexivity|].
  apply (@isPathOverlapping_method_narrows JsString.ascii_lower
           "/a/b/c" [("/a/{id}", ["get"])]).
  reflexivity.
Defined.

(** The theorem at the second entry of an index, with an upper-case
    query. *)
Lemma isPathOverlapping_declared_witness :
  In ("/pets/{id}", ["get"; "put"])
     [("/owners", ["get"]); ("/pets/{id}", ["get"; "put"])]
  /\ includes ["get"; "put"] (JsString.ascii_lower "PUT") = true
  /\ normalizePath "/pets/{id}" <> EmptyString
  /\ truthy (isPathOverlapping JsString.ascii_lower "/pets/{id}" (Some "PUT")
               [("/owners", ["get"]); ("/pets/{id}", ["get"; "put"])])
     = true.
Proof.
  assert (Hin : In ("/pets/{id}", ["get"; "put"])
                   [("/owners", ["get"]); ("/pets/{id}", ["get"; "put"])])
    by (right; left; reflexivity).
  assert (Hkey : normalizePath "/pets/{id}" <> EmptyString) by discriminate.
  split; [exact Hin|]. split; [reflexivity|]. split; [exact Hkey|].
  destruct (@isPathOverlapping_declared JsString.ascii_lower
              "/pets/{id}" "PUT" ["get"; "put"]
              [("/owners", ["get"]); ("/pets/{id}", ["get"; "put"])]
              Hin eq_refl Hkey)
    as (before & k' & ms' & after & _ & _ & _ & Htruthy & _).
  exact Htruthy.
Defined.

(** The theorem at an index that declares the root path. *)
Lemma displaySpecificOverlap_root_witness :
  normalizePath "/" = EmptyString
  /\ truthy (isPathOverlapping JsString.ascii_lower "/" (Some "get")
               [("/", ["get"]); ("/pets", ["get"])]) = false.
Proof.
  split; [reflexivity|].
  apply (@displaySpecificOverlap_root JsString.ascii_lower "/"
           [("/", ["get"]); ("/pets", ["get"])] eq_refl).
  intros k ms [[= <- <-]|[[= <- <-]|[]]]; reflexivity.
Defined.

(** The theorem at the keys [/pets] and [/pets/]. *)
Lemma findOverlappingEndpoints_same_normal_form_witness :
  0 < 1 < List.length (JsObject.keys [("/pets", ["get"]); ("/pets/", ["put"])])
  /\ normalizePath "/pets" = normalizePath "/pets/"
  /\ normalizePath "/pets/" <> EmptyString
  /\ In {| path1 := "/pets"; path2 := "/pets/" |}
        (findOverlappingEndpoints JsString.ascii_lower
           [("/pets", ["get"]); ("/pets/", ["put"])]).
Proof.
  assert (H1 : 0 < 1 < List.length
                         (JsObject.keys [("/pets", ["get"]);
                                         ("/pets/", ["put"])]))
    by (simpl; lia).
  assert (H3 : normalizePath "/pets/" <> EmptyString) by discriminate.
  split; [exact H1|]. split; [reflexivity|]. split; [exact H3|].
  apply (@findOverlappingEndpoints_same_normal_form JsString.ascii_lower
           [("/pets", ["get"]); ("/pets/", ["put"])] 0 1 H1 eq_refl H3).
Defined.

(** The theorem at an index of three literal routes. *)
Lemma findOverlappingEndpoints_literal_witness :
  NoDup (map normalizePath
             (JsObject.keys [("/pets", ["get"]); ("/owners/", ["get"]);
                             ("/pets/all", ["get"])]))
  /\ findOverlappingEndpoints JsString.ascii_lower
       [("/pets", ["get"]); ("/owners/", ["get"]); ("/pets/all", ["get"])]
     = [].
Proof.
  assert (Hnd : NoDup (map normalizePath
                           (JsObject.keys [("/pets", ["get"]);
                                           ("/owners/", ["get"]);
                                           ("/pets/all", ["get"])]))).
  { repeat constructor; simpl; intuition discriminate. }
  split; [exact Hnd|].
  apply (@findOverlappingEndpoints_literal JsString.ascii_lower
           [("/pets", ["get"]); ("/owners/", ["get"]);
            ("/pets/all", ["get"])]); [|exact Hnd].
  intros k [<-|[<-|[<-|[]]]]; reflexivity.
Defined.

(** The theorem at an index of two keys, followed by a third. *)
Lemma findOverlappingEndpoints_app_witness :
  In {| path1 := "/a/b"; path2 := "/a/{id}" |}
     (findOverlappingEndpoints JsString.ascii_lower
        [("/a/b", ["get"]); ("/a/{id}", ["get"])])
  /\ In {| path1 := "/a/b"; path2 := "/a/{id}" |}
        (findOverlappingEndpoints JsString.ascii_lower
           ([("/a/b", ["get"]); ("/a/{id}", ["get"])]
              ++ [("/{x}/{y}", ["get"])])).
Proof.
  assert (H : In {| path1 := "/a/b"; path2 := "/a/{id}" |}
                 (findOverlappingEndpoints JsString.ascii_lower
                    [("/a/b", ["get"]); ("/a/{id}", ["get"])]))
    by (left; reflexivity).
  split; [exact H|].
  apply (@findOverlappingEndpoints_app JsString.ascii_lower
           [("/a/b", ["get"]); ("/a/{id}", ["get"])]
           [("/{x}/{y}", ["get"])] _ H).
Defined.
